(** * Text layout and composition engine of the ad-creative generator

    A shallow embedding of the canvas helpers of [src/index.tsx]:
    [calculateWrappedTextHeight], [drawWrappedText], [renderTextOnImage] and
    [compositeImageWithLogo], with the properties of the word wrap and of the
    overlay geometry.

    Conventions of the embedding.
    - A JavaScript string is the list of its UTF-16 code units.
    - A JavaScript number is an exact rational ([Q]); [==] is equality of
      numbers.  Rounding of IEEE doubles is not modelled.
    - The 2D context is a record of its drawing state together with the list
      of drawing calls issued so far; the canvas helpers run in a state monad
      over it.  [measureText] is a parameter: the width of a text in a font. *)

From Stdlib Require Import Ascii String.
From Stdlib Require Import List ZArith NArith QArith Qround Qminmax Bool Lia Lqa.
Import ListNotations.

Local Open Scope Q_scope.

(** ** JavaScript strings *)

Module JsString.

Abbreviation char := N.
Abbreviation t := (list N).

(** A string literal of the source, as code units. *)
Definition lit (s : string) : t := map N_of_ascii (list_ascii_of_string s).

Definition space : char := 32%N.

(** WhiteSpace and LineTerminator code points of ECMAScript, the ones
    [String.prototype.trim] strips. *)
Definition isWhiteSpace (c : char) : bool :=
  ((c =? 9) || (c =? 10) || (c =? 11) || (c =? 12) || (c =? 13) || (c =? 32)
   || (c =? 160) || (c =? 5760) || ((8192 <=? c) && (c <=? 8202))
   || (c =? 8232) || (c =? 8233) || (c =? 8239) || (c =? 8287)
   || (c =? 12288) || (c =? 65279))%N.

Fixpoint trimStart (s : t) : t :=
  match s with
  | [] => []
  | c :: r => if isWhiteSpace c then trimStart r else s
  end.

Definition trimEnd (s : t) : t := rev (trimStart (rev s)).

(** [s.trim()] *)
Definition trim (s : t) : t := trimEnd (trimStart s).

(** [s.split(sep)] for a one-character separator: never the empty list. *)
Fixpoint split (sep : char) (s : t) : list t :=
  match s with
  | [] => [[]]
  | c :: r =>
      if (c =? sep)%N then [] :: split sep r
      else match split sep r with
           | h :: tl => (c :: h) :: tl
           | [] => [[c]]
           end
  end.

(** [a.join(sep)] *)
Fixpoint join (sep : t) (a : list t) : t :=
  match a with
  | [] => []
  | [x] => x
  | x :: r => x ++ sep ++ join sep r
  end.

(** [s.length > 0] *)
Definition nonEmpty (s : t) : bool := (0 <? length s)%nat.

Definition eqb (a b : t) : bool :=
  if list_eq_dec N.eq_dec a b then true else false.

End JsString.

Abbreviation jsstring := (list N).

(** [number > number] on exact numbers. *)
Definition Qgtb (a b : Q) : bool := negb (Qle_bool a b).

(** ** The 2D drawing context *)

Inductive FontFamily := SansSerif | InterSansSerif.

(** A CSS font shorthand [`${weight} ${size}px ${family}`]. *)
Record Font := mkFont { fontWeight : Z; fontSizePx : Q; fontFamily : FontFamily }.

Inductive TextAlign := AlignStart | AlignCenter.
Inductive TextBaseline := BaselineAlphabetic | BaselineTop | BaselineMiddle.

(** A decoded image: its native pixel dimensions. *)
Record Image := mkImage { imgWidth : Z; imgHeight : Z }.

(** The drawing state of a context. *)
Record DrawState := mkState {
  font : Font;
  fillStyle : string;
  textAlign : TextAlign;
  textBaseline : TextBaseline;
  globalAlpha : Q
}.

Inductive Call :=
| DrawImage (img : Image) (x y : Q)
| DrawImageScaled (img : Image) (x y w h : Q)
| FillRect (x y w h : Q)
| FillText (text : jsstring) (x y : Q).

(** A context: its drawing state and the calls issued so far, each with the
    state it was issued in. *)
Record Context := mkContext {
  state : DrawState;
  drawn : list (DrawState * Call)
}.

(** The state of a context freshly obtained from [canvas.getContext('2d')]. *)
Definition freshContext : Context :=
  mkContext (mkState (mkFont 400 10 SansSerif) "#000000" AlignStart BaselineAlphabetic 1) [].

(** The result of [calculateWrappedTextHeight]. *)
Record WrapResult := mkWrap { lines : list jsstring; height : Q }.

(** *** Statements on a context, as a state monad *)

Definition Draw (A : Type) : Type := Context -> A * Context.

Definition ret {A} (a : A) : Draw A := fun c => (a, c).
Definition bind {A B} (m : Draw A) (k : A -> Draw B) : Draw B :=
  fun c => let '(a, c') := m c in k a c'.

Notation "x <- m ;; k" := (bind m (fun x => k))
  (at level 61, m at next level, right associativity).
Notation "m ;;; k" := (bind m (fun _ => k))
  (at level 61, right associativity).

Definition getContext : Draw Context := fun c => (c, c).

Definition modify (f : DrawState -> DrawState) : Draw unit :=
  fun c => (tt, mkContext (f (state c)) (drawn c)).

Definition setFont (f : Font) : Draw unit :=
  modify (fun s => mkState f (fillStyle s) (textAlign s) (textBaseline s) (globalAlpha s)).
Definition setFillStyle (v : string) : Draw unit :=
  modify (fun s => mkState (font s) v (textAlign s) (textBaseline s) (globalAlpha s)).
Definition setTextAlign (v : TextAlign) : Draw unit :=
  modify (fun s => mkState (font s) (fillStyle s) v (textBaseline s) (globalAlpha s)).
Definition setTextBaseline (v : TextBaseline) : Draw unit :=
  modify (fun s => mkState (font s) (fillStyle s) (textAlign s) v (globalAlpha s)).
Definition setGlobalAlpha (v : Q) : Draw unit :=
  modify (fun s => mkState (font s) (fillStyle s) (textAlign s) (textBaseline s) v).

Definition issue (op : Call) : Draw unit :=
  fun c => (tt, mkContext (state c) (drawn c ++ [(state c, op)])).

Definition drawImage img x y := issue (DrawImage img x y).
Definition drawImageScaled img x y w h := issue (DrawImageScaled img x y w h).
Definition fillRect x y w h := issue (FillRect x y w h).
Definition fillText text x y := issue (FillText text x y).

Section Canvas.

(** [context.measureText(text).width] in a given font. *)
Variable textWidth : Font -> jsstring -> Q.

Definition measureText (context : Context) (text : jsstring) : Q :=
  textWidth (font (state context)) text.

(** *** Word wrap *)

(** The body of the [for (const word of words)] loop, on the two mutable
    locals [lines] and [currentLine]. *)
Definition wrapStep (context : Context) (maxWidth : Q)
    (st : list jsstring * jsstring) (word : jsstring) : list jsstring * jsstring :=
  let '(lines, currentLine) := st in
  let testLine :=
    if JsString.nonEmpty currentLine
    then currentLine ++ [JsString.space] ++ word
    else word in
  let width := measureText context testLine in
  if Qgtb width maxWidth && JsString.nonEmpty currentLine
  then (lines ++ [currentLine], word)
  else (lines, testLine).

Definition wrapLoop (context : Context) (maxWidth : Q)
    (words : list jsstring) (st : list jsstring * jsstring) :=
  fold_left (wrapStep context maxWidth) words st.

Definition calculateWrappedTextHeight (context : Context) (text : jsstring)
    (maxWidth lineHeight : Q) : WrapResult :=
  if negb (JsString.nonEmpty text) || JsString.eqb (JsString.trim text) []
  then mkWrap [] 0
  else
    let words := JsString.split JsString.space text in
    let '(lines, currentLine) := wrapLoop context maxWidth words ([], []) in
    let lines := lines ++ [currentLine] in
    mkWrap lines (inject_Z (Z.of_nat (length lines)) * lineHeight).

Fixpoint drawWrappedText (lines : list jsstring) (x y lineHeight : Q) : Draw unit :=
  match lines with
  | [] => ret tt
  | line :: rest =>
      fillText line x y ;;;
      drawWrappedText rest x (y + lineHeight) lineHeight
  end.

(** *** The text compositor: the [onload] handler of [renderTextOnImage] *)

Definition floor (x : Q) : Q := inject_Z (Qfloor x).

Record Style := mkStyle {
  padding : Q;
  contentWidth : Q;
  headlineFontSize : Q;
  headlineLineHeight : Q;
  bodyFontSize : Q;
  bodyLineHeight : Q;
  spacing : Q
}.

(** "Style Calculations" *)
Definition styleCalculations (canvasWidth : Q) : Style :=
  let padding := canvasWidth * 0.06 in
  let contentWidth := canvasWidth - (padding * 2) in
  let headlineFontSize := Qmax 24 (floor (canvasWidth / 20)) in
  let headlineLineHeight := headlineFontSize * 1.3 in
  let bodyFontSize := Qmax 16 (floor (canvasWidth / 30)) in
  let bodyLineHeight := bodyFontSize * 1.4 in
  let spacing := bodyFontSize * 1.2 in
  mkStyle padding contentWidth headlineFontSize headlineLineHeight
          bodyFontSize bodyLineHeight spacing.

(** [ctaText && ctaText.trim().length > 0], [ctaText] being optional. *)
Definition ctaGiven (ctaText : option jsstring) : bool :=
  match ctaText with
  | None => false
  | Some s => JsString.nonEmpty s && JsString.nonEmpty (JsString.trim s)
  end.

(** [ctaText!] where a string is expected. *)
Definition ctaLabel (ctaText : option jsstring) : jsstring :=
  match ctaText with
  | Some s => s
  | None => JsString.lit "undefined"
  end.

Record Content := mkContent {
  headlineMetrics : WrapResult;
  bodyMetrics : WrapResult;
  ctaBlockHeight : Q;
  totalContentHeight : Q
}.

(** "Content Height Calculation (Dry Run)" *)
Definition contentHeightCalculation (s : Style)
    (headline body : jsstring) (ctaText : option jsstring) : Draw Content :=
  let totalContentHeight := 0 in
  setFont (mkFont 700 (headlineFontSize s) InterSansSerif) ;;;
  ctx <- getContext ;;
  let headlineMetrics :=
    calculateWrappedTextHeight ctx headline (contentWidth s) (headlineLineHeight s) in
  let totalContentHeight := totalContentHeight + height headlineMetrics in
  setFont (mkFont 400 (bodyFontSize s) InterSansSerif) ;;;
  ctx <- getContext ;;
  let bodyMetrics :=
    calculateWrappedTextHeight ctx body (contentWidth s) (bodyLineHeight s) in
  let totalContentHeight :=
    if Qgtb (height bodyMetrics) 0
    then totalContentHeight + (spacing s + height bodyMetrics)
    else totalContentHeight in
  let ctaBlockHeight := 0 in
  let '(ctaBlockHeight, totalContentHeight) :=
    if ctaGiven ctaText then
      let ctaFontSize := bodyFontSize s * 1.1 in
      let ctaBlockHeight := ctaFontSize * 2.4 in
      (ctaBlockHeight, totalContentHeight + (padding s + ctaBlockHeight))
    else (ctaBlockHeight, totalContentHeight) in
  ret (mkContent headlineMetrics bodyMetrics ctaBlockHeight totalContentHeight).

(** "Draw Background"; returns [safeRectY]. *)
Definition drawBackground (canvasWidth canvasHeight : Q) (s : Style)
    (totalContentHeight : Q) : Draw Q :=
  let rectHeight := totalContentHeight + (padding s * 2) in
  let rectY := canvasHeight - rectHeight in
  let safeRectY := Qmax 0 rectY in
  let safeRectHeight := canvasHeight - safeRectY in
  setFillStyle "rgba(0, 0, 0, 0.65)" ;;;
  fillRect 0 safeRectY canvasWidth safeRectHeight ;;;
  ret safeRectY.

(** "3. Draw CTA Button", entered with [currentY] below the body. *)
Definition drawCtaButton (canvasWidth canvasHeight : Q) (s : Style)
    (ctaBlockHeight : Q) (ctaText : option jsstring) (currentY : Q) : Draw unit :=
  let currentY := currentY + padding s in
  let currentY :=
    if Qgtb (currentY + ctaBlockHeight) canvasHeight
    then canvasHeight - ctaBlockHeight - (padding s / 2)
    else currentY in
  let ctaFontSize := bodyFontSize s * 1.1 in
  setFont (mkFont 700 ctaFontSize InterSansSerif) ;;;
  ctx <- getContext ;;
  let ctaMetrics := measureText ctx (ctaLabel ctaText) in
  let ctaButtonWidth := ctaMetrics + (padding s * 2) in
  let ctaButtonX := (canvasWidth - ctaButtonWidth) / 2 in
  setFillStyle "#bb86fc" ;;;
  fillRect ctaButtonX currentY ctaButtonWidth ctaBlockHeight ;;;
  setFillStyle "#121212" ;;;
  setTextBaseline BaselineMiddle ;;;
  fillText (ctaLabel ctaText) (canvasWidth / 2) (currentY + ctaBlockHeight / 2).

(** "Draw Content" *)
Definition drawContent (canvasWidth canvasHeight : Q) (s : Style) (c : Content)
    (ctaText : option jsstring) (safeRectY : Q) : Draw unit :=
  setTextAlign AlignCenter ;;;
  setTextBaseline BaselineTop ;;;
  let currentY := safeRectY + padding s in
  setFillStyle "white" ;;;
  setFont (mkFont 700 (headlineFontSize s) InterSansSerif) ;;;
  drawWrappedText (lines (headlineMetrics c)) (canvasWidth / 2) currentY
                  (headlineLineHeight s) ;;;
  let currentY := currentY + height (headlineMetrics c) in
  currentY <-
    (if Qgtb (height (bodyMetrics c)) 0 then
       let currentY := currentY + spacing s in
       setFont (mkFont 400 (bodyFontSize s) InterSansSerif) ;;;
       drawWrappedText (lines (bodyMetrics c)) (canvasWidth / 2) currentY
                       (bodyLineHeight s) ;;;
       ret (currentY + height (bodyMetrics c))
     else ret currentY) ;;
  if Qgtb (ctaBlockHeight c) 0
  then drawCtaButton canvasWidth canvasHeight s (ctaBlockHeight c) ctaText currentY
  else ret tt.

(** [baseImage.onload]: the canvas takes the image's native size. *)
Definition renderOnLoad (baseImage : Image) (headline body : jsstring)
    (ctaText : option jsstring) : Draw unit :=
  let canvasWidth := inject_Z (imgWidth baseImage) in
  let canvasHeight := inject_Z (imgHeight baseImage) in
  drawImage baseImage 0 0 ;;;
  let s := styleCalculations canvasWidth in
  c <- contentHeightCalculation s headline body ctaText ;;
  safeRectY <- drawBackground canvasWidth canvasHeight s (totalContentHeight c) ;;
  drawContent canvasWidth canvasHeight s c ctaText safeRectY.

(** The outcome of a promise whose value is the canvas as drawn. *)
Inductive Outcome := Rejected | Resolved (canvas : list (DrawState * Call)).

(** [renderTextOnImage]: [ctx] is what [canvas.getContext('2d')] returned and
    [decoded] the image the URL decodes to, if it does. *)
Definition renderTextOnImage (ctx : option Context) (decoded : option Image)
    (headline body : jsstring) (ctaText : option jsstring) : Outcome :=
  match ctx with
  | None => Rejected
  | Some ctx =>
      match decoded with
      | None => Rejected
      | Some baseImage =>
          Resolved (drawn (snd (renderOnLoad baseImage headline body ctaText ctx)))
      end
  end.

(** *** The logo compositor *)

(** [logoImage.onload] of [compositeImageWithLogo]. *)
Definition logoOnLoad (baseImage logoImage : Image) (position : jsstring) : Draw unit :=
  let canvasWidth := inject_Z (imgWidth baseImage) in
  let canvasHeight := inject_Z (imgHeight baseImage) in
  let padding := canvasWidth * 0.05 in
  let logoWidth := canvasWidth * 0.2 in
  let scale := logoWidth / inject_Z (imgWidth logoImage) in
  let logoHeight := inject_Z (imgHeight logoImage) * scale in
  let '(x, y) :=
    if JsString.eqb position (JsString.lit "top-left") then
      (padding, padding)
    else if JsString.eqb position (JsString.lit "top-right") then
      (canvasWidth - logoWidth - padding, padding)
    else if JsString.eqb position (JsString.lit "bottom-left") then
      (padding, canvasHeight - logoHeight - padding)
    else
      (canvasWidth - logoWidth - padding, canvasHeight - logoHeight - padding) in
  setGlobalAlpha 0.9 ;;;
  drawImageScaled logoImage x y logoWidth logoHeight ;;;
  setGlobalAlpha 1.0.

Definition compositeImageWithLogo (ctx : option Context)
    (decodedBase decodedLogo : option Image) (position : jsstring) : Outcome :=
  match ctx with
  | None => Rejected
  | Some ctx =>
      match decodedBase with
      | None => Rejected
      | Some baseImage =>
          let '(_, ctx) := drawImage baseImage 0 0 ctx in
          match decodedLogo with
          | None => Rejected
          | Some logoImage =>
              Resolved (drawn (snd (logoOnLoad baseImage logoImage position ctx)))
          end
      end
  end.

End Canvas.

(** ** Vocabulary of the properties *)

(** The guard of [calculateWrappedTextHeight]: [!text || text.trim() === ''].
    This is the test written in the function, named. *)
Definition isBlank (text : jsstring) : bool :=
  negb (JsString.nonEmpty text) || JsString.eqb (JsString.trim text) [].

(** The tokens of a text: [text.split(' ')]. *)
Definition tokens (text : jsstring) : list jsstring :=
  JsString.split JsString.space text.

(** Lines glued back with single spaces: [lines.join(' ')]. *)
Definition unwrap (ls : list jsstring) : jsstring :=
  JsString.join [JsString.space] ls.

(** Two consecutive spaces occur in the text. *)
Fixpoint hasDoubleSpace (s : jsstring) : bool :=
  match s with
  | c :: r =>
      match r with
      | d :: _ => ((c =? JsString.space)%N && (d =? JsString.space)%N) || hasDoubleSpace r
      | [] => false
      end
  | [] => false
  end.

Definition startsWithSpace (s : jsstring) : bool :=
  match s with
  | c :: _ => (c =? JsString.space)%N
  | [] => false
  end.

(** Every token but the last is a non-empty string. *)
Fixpoint initNonEmpty (ws : list jsstring) : Prop :=
  match ws with
  | [] => True
  | w :: r => match r with [] => True | _ :: _ => w <> [] /\ initNonEmpty r end
  end.


(** The lines [calculateWrappedTextHeight] returns once the loop has ended in
    [st]: the final [lines.push(currentLine)]. *)
Definition pushed (st : list jsstring * jsstring) : list jsstring :=
  fst st ++ [snd st].


(** Two loop states over the same words, [s1] at the narrower width: [s2]
    has committed fewer lines, or as many and its current line is an end
    piece of the current line of [s1]. *)
Definition notBehind (s1 s2 : list jsstring * jsstring) : Prop :=
  (length (fst s2) < length (fst s1))%nat \/
  (length (fst s2) = length (fst s1) /\ exists p, snd s1 = p ++ snd s2).

(** Some character of the text is not white space. *)
Definition nonBlank (text : jsstring) : Prop :=
  Exists (fun c => JsString.isWhiteSpace c = false) text.

(** A measure that never shrinks when text is put in front. *)
Definition prefixMonotone (measure : jsstring -> Q) : Prop :=
  forall p s, measure s <= measure (p ++ s).

(** The values of the dry run of the compositor on a canvas of a given
    width: they do not depend on the context it runs in, which only supplies
    the fonts the dry run sets itself. *)
Definition dryRun (textWidth : Font -> jsstring -> Q) (canvasWidth : Q)
    (headline body : jsstring) (ctaText : option jsstring) : Content :=
  fst (contentHeightCalculation textWidth (styleCalculations canvasWidth)
         headline body ctaText freshContext).


(** The first word of a line: its first token. *)
Definition firstWord (s : jsstring) : jsstring := hd [] (tokens s).

(** Every break between two consecutive lines was forced: the earlier line
    with a space and the first word of the next one measures more than
    [maxWidth]. *)
Fixpoint breaksForced (measure : jsstring -> Q) (maxWidth : Q)
    (ls : list jsstring) : Prop :=
  match ls with
  | a :: r =>
      match r with
      | b :: _ =>
          maxWidth < measure (a ++ [JsString.space] ++ firstWord b) /\
          breaksForced measure maxWidth r
      | [] => True
      end
  | [] => True
  end.

(** *** Measuring functions used in the examples *)

(** Every character is half as wide as the font size. *)
Definition halfEm (f : Font) (s : jsstring) : Q :=
  fontSizePx f * inject_Z (Z.of_nat (length s)) * 0.5.

(** A measure that is not monotone: three particular texts are wide and
    everything else is narrow. *)
Definition erratic (f : Font) (s : jsstring) : Q :=
  if JsString.eqb s (JsString.lit "a b") then 5
  else if JsString.eqb s (JsString.lit "a b c") then 100
  else if JsString.eqb s (JsString.lit "c d") then 100
  else 1.

(** ** The application state and its handlers *)

Module App.

Module CopyOption.
Record t := mk { headline : jsstring; body : jsstring }.
End CopyOption.

(** [finalImageUrl] is what [compositeImageUrls[selectedIndex]] gave when the
    creative was saved: [None] stands for [undefined]. *)
Module Creative.
Record t := mk {
  id : jsstring;
  baseImageUrlWithLogo : jsstring;
  finalImageUrl : option jsstring;
  headline : jsstring;
  body : jsstring;
  ctaText : option jsstring;
  prompt : jsstring;
  rating : Q
}.
End Creative.

(** [selectedIndex] is an array index: 0, or the position of a thumbnail. *)
Module GeneratedCreative.
Record t := mk {
  baseImageUrlWithLogo : jsstring;
  compositeImageUrls : list jsstring;
  copyOptions : list CopyOption.t;
  imagePrompt : jsstring;
  campaignDescription : jsstring;
  ctaText : option jsstring;
  selectedIndex : nat
}.
End GeneratedCreative.

Module SavedImage.
Record t := mk { id : jsstring; url : jsstring; prompt : jsstring }.
End SavedImage.

Module File.
Record t := mk { name : jsstring }.
End File.

Inductive Tab := TabCreative | TabImage.
Inductive ImageSource := SourceGenerate | SourceSaved.

Record AppState := mkAppState {
  isLoading : bool;
  isCopyLoading : bool;
  generatedCreative : option GeneratedCreative.t;
  savedCreatives : list Creative.t;
  error : option jsstring;
  fileName : option jsstring;
  logoFile : option File.t;
  activeTab : Tab;
  campaignDescription : jsstring;
  imagePrompt : jsstring;
  format : jsstring;
  logoPosition : jsstring;
  ctaText : jsstring;
  editingCreative : option Creative.t;
  isImageLoading : bool;
  imageError : option jsstring;
  generatedImageUrl : option jsstring;
  imageGenPrompt : jsstring;
  imageGenStyle : jsstring;
  imageGenFormat : jsstring;
  savedImages : list SavedImage.t;
  imageSource : ImageSource;
  selectedSavedImageId : option jsstring
}.

(** One key of an object literal passed to [setState], with its value. *)
Inductive Assign :=
| SetIsLoading (v : bool)
| SetIsCopyLoading (v : bool)
| SetGeneratedCreative (v : option GeneratedCreative.t)
| SetSavedCreatives (v : list Creative.t)
| SetError (v : option jsstring)
| SetFileName (v : option jsstring)
| SetLogoFile (v : option File.t)
| SetActiveTab (v : Tab)
| SetEditingCreative (v : option Creative.t)
| SetIsImageLoading (v : bool)
| SetImageError (v : option jsstring)
| SetGeneratedImageUrl (v : option jsstring)
| SetSavedImages (v : list SavedImage.t)
| SetImageSource (v : ImageSource)
| SetSelectedSavedImageId (v : option jsstring).

(** [{ ...state, key: v }] *)
Definition assign (s : AppState) (a : Assign) : AppState :=
  match a with
  | SetIsLoading v =>
      mkAppState v (isCopyLoading s) (generatedCreative s) (savedCreatives s)
        (error s) (fileName s) (logoFile s) (activeTab s) (campaignDescription s)
        (imagePrompt s) (format s) (logoPosition s) (ctaText s) (editingCreative s)
        (isImageLoading s) (imageError s) (generatedImageUrl s) (imageGenPrompt s)
        (imageGenStyle s) (imageGenFormat s) (savedImages s) (imageSource s)
        (selectedSavedImageId s)
  | SetIsCopyLoading v =>
      mkAppState (isLoading s) v (generatedCreative s) (savedCreatives s) (error s)
        (fileName s) (logoFile s) (activeTab s) (campaignDescription s)
        (imagePrompt s) (format s) (logoPosition s) (ctaText s) (editingCreative s)
        (isImageLoading s) (imageError s) (generatedImageUrl s) (imageGenPrompt s)
        (imageGenStyle s) (imageGenFormat s) (savedImages s) (imageSource s)
        (selectedSavedImageId s)
  | SetGeneratedCreative v =>
      mkAppState (isLoading s) (isCopyLoading s) v (savedCreatives s) (error s)
        (fileName s) (logoFile s) (activeTab s) (campaignDescription s)
        (imagePrompt s) (format s) (logoPosition s) (ctaText s) (editingCreative s)
        (isImageLoading s) (imageError s) (generatedImageUrl s) (imageGenPrompt s)
        (imageGenStyle s) (imageGenFormat s) (savedImages s) (imageSource s)
        (selectedSavedImageId s)
  | SetSavedCreatives v =>
      mkAppState (isLoading s) (isCopyLoading s) (generatedCreative s) v (error s)
        (fileName s) (logoFile s) (activeTab s) (campaignDescription s)
        (imagePrompt s) (format s) (logoPosition s) (ctaText s) (editingCreative s)
        (isImageLoading s) (imageError s) (generatedImageUrl s) (imageGenPrompt s)
        (imageGenStyle s) (imageGenFormat s) (savedImages s) (imageSource s)
        (selectedSavedImageId s)
  | SetError v =>
      mkAppState (isLoading s) (isCopyLoading s) (generatedCreative s)
        (savedCreatives s) v (fileName s) (logoFile s) (activeTab s)
        (campaignDescription s) (imagePrompt s) (format s) (logoPosition s)
        (ctaText s) (editingCreative s) (isImageLoading s) (imageError s)
        (generatedImageUrl s) (imageGenPrompt s) (imageGenStyle s)
        (imageGenFormat s) (savedImages s) (imageSource s) (selectedSavedImageId s)
  | SetFileName v =>
      mkAppState (isLoading s) (isCopyLoading s) (generatedCreative s)
        (savedCreatives s) (error s) v (logoFile s) (activeTab s)
        (campaignDescription s) (imagePrompt s) (format s) (logoPosition s)
        (ctaText s) (editingCreative s) (isImageLoading s) (imageError s)
        (generatedImageUrl s) (imageGenPrompt s) (imageGenStyle s)
        (imageGenFormat s) (savedImages s) (imageSource s) (selectedSavedImageId s)
  | SetLogoFile v =>
      mkAppState (isLoading s) (isCopyLoading s) (generatedCreative s)
        (savedCreatives s) (error s) (fileName s) v (activeTab s)
        (campaignDescription s) (imagePrompt s) (format s) (logoPosition s)
        (ctaText s) (editingCreative s) (isImageLoading s) (imageError s)
        (generatedImageUrl s) (imageGenPrompt s) (imageGenStyle s)
        (imageGenFormat s) (savedImages s) (imageSource s) (selectedSavedImageId s)
  | SetActiveTab v =>
      mkAppState (isLoading s) (isCopyLoading s) (generatedCreative s)
        (savedCreatives s) (error s) (fileName s) (logoFile s) v
        (campaignDescription s) (imagePrompt s) (format s) (logoPosition s)
        (ctaText s) (editingCreative s) (isImageLoading s) (imageError s)
        (generatedImageUrl s) (imageGenPrompt s) (imageGenStyle s)
        (imageGenFormat s) (savedImages s) (imageSource s) (selectedSavedImageId s)
  | SetEditingCreative v =>
      mkAppState (isLoading s) (isCopyLoading s) (generatedCreative s)
        (savedCreatives s) (error s) (fileName s) (logoFile s) (activeTab s)
        (campaignDescription s) (imagePrompt s) (format s) (logoPosition s)
        (ctaText s) v (isImageLoading s) (imageError s) (generatedImageUrl s)
        (imageGenPrompt s) (imageGenStyle s) (imageGenFormat s) (savedImages s)
        (imageSource s) (selectedSavedImageId s)
  | SetIsImageLoading v =>
      mkAppState (isLoading s) (isCopyLoading s) (generatedCreative s)
        (savedCreatives s) (error s) (fileName s) (logoFile s) (activeTab s)
        (campaignDescription s) (imagePrompt s) (format s) (logoPosition s)
        (ctaText s) (editingCreative s) v (imageError s) (generatedImageUrl s)
        (imageGenPrompt s) (imageGenStyle s) (imageGenFormat s) (savedImages s)
        (imageSource s) (selectedSavedImageId s)
  | SetImageError v =>
      mkAppState (isLoading s) (isCopyLoading s) (generatedCreative s)
        (savedCreatives s) (error s) (fileName s) (logoFile s) (activeTab s)
        (campaignDescription s) (imagePrompt s) (format s) (logoPosition s)
        (ctaText s) (editingCreative s) (isImageLoading s) v (generatedImageUrl s)
        (imageGenPrompt s) (imageGenStyle s) (imageGenFormat s) (savedImages s)
        (imageSource s) (selectedSavedImageId s)
  | SetGeneratedImageUrl v =>
      mkAppState (isLoading s) (isCopyLoading s) (generatedCreative s)
        (savedCreatives s) (error s) (fileName s) (logoFile s) (activeTab s)
        (campaignDescription s) (imagePrompt s) (format s) (logoPosition s)
        (ctaText s) (editingCreative s) (isImageLoading s) (imageError s) v
        (imageGenPrompt s) (imageGenStyle s) (imageGenFormat s) (savedImages s)
        (imageSource s) (selectedSavedImageId s)
  | SetSavedImages v =>
      mkAppState (isLoading s) (isCopyLoading s) (generatedCreative s)
        (savedCreatives s) (error s) (fileName s) (logoFile s) (activeTab s)
        (campaignDescription s) (imagePrompt s) (format s) (logoPosition s)
        (ctaText s) (editingCreative s) (isImageLoading s) (imageError s)
        (generatedImageUrl s) (imageGenPrompt s) (imageGenStyle s)
        (imageGenFormat s) v (imageSource s) (selectedSavedImageId s)
  | SetImageSource v =>
      mkAppState (isLoading s) (isCopyLoading s) (generatedCreative s)
        (savedCreatives s) (error s) (fileName s) (logoFile s) (activeTab s)
        (campaignDescription s) (imagePrompt s) (format s) (logoPosition s)
        (ctaText s) (editingCreative s) (isImageLoading s) (imageError s)
        (generatedImageUrl s) (imageGenPrompt s) (imageGenStyle s)
        (imageGenFormat s) (savedImages s) v (selectedSavedImageId s)
  | SetSelectedSavedImageId v =>
      mkAppState (isLoading s) (isCopyLoading s) (generatedCreative s)
        (savedCreatives s) (error s) (fileName s) (logoFile s) (activeTab s)
        (campaignDescription s) (imagePrompt s) (format s) (logoPosition s)
        (ctaText s) (editingCreative s) (isImageLoading s) (imageError s)
        (generatedImageUrl s) (imageGenPrompt s) (imageGenStyle s)
        (imageGenFormat s) (savedImages s) (imageSource s) v
  end.

(** What a handler does besides changing [state]: a call of
    [saveCreativesToStorage] or [saveImagesToStorage] with a list (the write
    may fail inside; the failure is caught there and only logged), or a call
    of [renderApp]. *)
Inductive Effect :=
| SaveCreativesToStorage (creatives : list Creative.t)
| SaveImagesToStorage (images : list SavedImage.t)
| RenderApp.

(** The module-level [state] and the effects so far. *)
Record World := mkWorld { state : AppState; effects : list Effect }.

(** [newState.savedCreatives !== undefined] *)
Definition hasSavedCreatives (newState : list Assign) : bool :=
  existsb (fun a => match a with SetSavedCreatives _ => true | _ => false end) newState.

(** [newState.savedImages !== undefined] *)
Definition hasSavedImages (newState : list Assign) : bool :=
  existsb (fun a => match a with SetSavedImages _ => true | _ => false end) newState.

Definition setState (newState : list Assign) (w : World) : World :=
  let state := fold_left assign newState (state w) in
  let persistence :=
    (if hasSavedCreatives newState
     then [SaveCreativesToStorage (savedCreatives state)] else []) ++
    (if hasSavedImages newState
     then [SaveImagesToStorage (savedImages state)] else []) in
  mkWorld state (effects w ++ persistence ++ [RenderApp]).

(** [String(n)] for a non-negative integer such as [Date.now()]. *)
Fixpoint digits (d : Decimal.uint) : jsstring :=
  match d with
  | Decimal.Nil => []
  | Decimal.D0 r => 48%N :: digits r
  | Decimal.D1 r => 49%N :: digits r
  | Decimal.D2 r => 50%N :: digits r
  | Decimal.D3 r => 51%N :: digits r
  | Decimal.D4 r => 52%N :: digits r
  | Decimal.D5 r => 53%N :: digits r
  | Decimal.D6 r => 54%N :: digits r
  | Decimal.D7 r => 55%N :: digits r
  | Decimal.D8 r => 56%N :: digits r
  | Decimal.D9 r => 57%N :: digits r
  end.

Definition numberToString (n : N) : jsstring := digits (N.to_uint n).

(** A string used as a condition: [""] is falsy. *)
Definition truthy (s : jsstring) : bool := JsString.nonEmpty s.

Definition handleTabClick (tab : Tab) : World -> World :=
  setState [SetActiveTab tab].

Definition handleImageSourceChange (source : ImageSource) : World -> World :=
  setState [SetImageSource source].

Definition handleSelectSavedImage (imageId : jsstring) : World -> World :=
  setState [SetSelectedSavedImageId (Some imageId)].

(** [now] is [Date.now()]. *)
Definition handleSaveGeneratedImage (now : N) (w : World) : World :=
  match generatedImageUrl (state w) with
  | None => w
  | Some generatedImageUrl =>
      if negb (truthy generatedImageUrl) || negb (truthy (imageGenPrompt (state w)))
      then w
      else if existsb (fun img => JsString.eqb (SavedImage.url img) generatedImageUrl)
                      (savedImages (state w))
      then w
      else
        let newSavedImage :=
          SavedImage.mk (JsString.lit "savedimg-" ++ numberToString now)
                        generatedImageUrl (imageGenPrompt (state w)) in
        setState [SetSavedImages (savedImages (state w) ++ [newSavedImage])] w
  end.

Definition handleDeleteSavedImage (imageId : jsstring) (w : World) : World :=
  setState
    [SetSavedImages
       (filter (fun img => negb (JsString.eqb (SavedImage.id img) imageId))
               (savedImages (state w)))] w.

(** [file] is [target.files?.[0]]. *)
Definition handleFileChange (file : option File.t) (w : World) : World :=
  match file with
  | Some file => setState [SetLogoFile (Some file); SetFileName (Some (File.name file))] w
  | None => w
  end.

Definition handleSelectCopy (index : nat) (w : World) : World :=
  match generatedCreative (state w) with
  | Some g =>
      setState
        [SetGeneratedCreative
           (Some (GeneratedCreative.mk
                    (GeneratedCreative.baseImageUrlWithLogo g)
                    (GeneratedCreative.compositeImageUrls g)
                    (GeneratedCreative.copyOptions g)
                    (GeneratedCreative.imagePrompt g)
                    (GeneratedCreative.campaignDescription g)
                    (GeneratedCreative.ctaText g)
                    index))] w
  | None => w
  end.

(** How a handler ends: it returns, or a [TypeError] escapes it. *)
Inductive Completion := Returned (w : World) | Threw (w : World).

(** [copyOptions[selectedIndex].headline] throws when the option is
    [undefined]; the world is then as it was. *)
Definition handleSaveCreative (now : N) (w : World) : Completion :=
  match generatedCreative (state w) with
  | None => Returned w
  | Some g =>
      let selectedIndex := GeneratedCreative.selectedIndex g in
      let finalImageUrl := nth_error (GeneratedCreative.compositeImageUrls g) selectedIndex in
      match nth_error (GeneratedCreative.copyOptions g) selectedIndex with
      | None => Threw w
      | Some copy =>
          let newCreative :=
            Creative.mk (JsString.lit "creative-" ++ numberToString now)
                        (GeneratedCreative.baseImageUrlWithLogo g)
                        finalImageUrl
                        (CopyOption.headline copy)
                        (CopyOption.body copy)
                        (GeneratedCreative.ctaText g)
                        (GeneratedCreative.imagePrompt g)
                        0 in
          Returned
            (setState [SetSavedCreatives (savedCreatives (state w) ++ [newCreative]);
                       SetGeneratedCreative None] w)
      end
  end.

(** [confirmed] is the answer to [confirm(...)]. *)
Definition handleDeleteCreative (confirmed : bool) (id : jsstring) (w : World) : World :=
  if confirmed
  then setState
         [SetSavedCreatives
            (filter (fun c => negb (JsString.eqb (Creative.id c) id))
                    (savedCreatives (state w)))] w
  else w.

Definition handleSetRating (id : jsstring) (rating : Q) (w : World) : World :=
  setState
    [SetSavedCreatives
       (map (fun c =>
               if JsString.eqb (Creative.id c) id
               then Creative.mk (Creative.id c) (Creative.baseImageUrlWithLogo c)
                                (Creative.finalImageUrl c) (Creative.headline c)
                                (Creative.body c) (Creative.ctaText c)
                                (Creative.prompt c) rating
               else c)
            (savedCreatives (state w)))] w.

Definition handleEditCreative (creative : Creative.t) : World -> World :=
  setState [SetEditingCreative (Some creative)].

Definition handleCloseModal : World -> World :=
  setState [SetEditingCreative None].

Section Platform.

(** The platform: text measuring, whether [canvas.getContext('2d')] gives a
    context, what a URL decodes to, and [canvas.toDataURL('image/jpeg', 0.9)]. *)
Variable textWidth : Font -> jsstring -> Q.
Variable contextAvailable : bool.
Variable decode : jsstring -> option Image.
Variable toDataURL : list (DrawState * Call) -> jsstring.

(** [handleUpdateCreative] on the submitted form fields, with nothing else
    running while the image is rendered. *)
Definition handleUpdateCreative (updatedHeadline updatedBody updatedCta : jsstring)
    (w : World) : World :=
  match editingCreative (state w) with
  | None => w
  | Some editing =>
      let w := setState [SetIsLoading true] w in
      match renderTextOnImage textWidth
              (if contextAvailable then Some freshContext else None)
              (decode (Creative.baseImageUrlWithLogo editing))
              updatedHeadline updatedBody (Some updatedCta) with
      | Resolved canvas =>
          let newFinalImageUrl := toDataURL canvas in
          setState
            [SetSavedCreatives
               (map (fun c =>
                       if JsString.eqb (Creative.id c) (Creative.id editing)
                       then Creative.mk (Creative.id c) (Creative.baseImageUrlWithLogo c)
                                        (Some newFinalImageUrl) updatedHeadline
                                        updatedBody (Some updatedCta)
                                        (Creative.prompt c) (Creative.rating c)
                       else c)
                    (savedCreatives (state w)));
             SetEditingCreative None;
             SetIsLoading false] w
      | Rejected =>
          setState [SetIsLoading false;
                    SetError (Some (JsString.lit "Falha ao atualizar o criativo."))] w
      end
  end.

(** A user action and its handler. *)
Inductive Event :=
| SaveGeneratedImage (now : N)
| DeleteSavedImage (imageId : jsstring)
| SelectCopy (index : nat)
| SaveCreative (now : N)
| DeleteCreative (confirmed : bool) (id : jsstring)
| SetRating (id : jsstring) (rating : Q)
| EditCreative (creative : Creative.t)
| UpdateCreative (updatedHeadline updatedBody updatedCta : jsstring)
| CloseModal
| TabClick (tab : Tab)
| ImageSourceChange (source : ImageSource)
| SelectSavedImage (imageId : jsstring)
| FileChange (file : option File.t).

Definition handle (w : World) (e : Event) : World :=
  match e with
  | SaveGeneratedImage now => handleSaveGeneratedImage now w
  | DeleteSavedImage imageId => handleDeleteSavedImage imageId w
  | SelectCopy index => handleSelectCopy index w
  | SaveCreative now =>
      match handleSaveCreative now w with Returned w' => w' | Threw w' => w' end
  | DeleteCreative confirmed id => handleDeleteCreative confirmed id w
  | SetRating id rating => handleSetRating id rating w
  | EditCreative creative => handleEditCreative creative w
  | UpdateCreative updatedHeadline updatedBody updatedCta =>
      handleUpdateCreative updatedHeadline updatedBody updatedCta w
  | CloseModal => handleCloseModal w
  | TabClick tab => handleTabClick tab w
  | ImageSourceChange source => handleImageSourceChange source w
  | SelectSavedImage imageId => handleSelectSavedImage imageId w
  | FileChange file => handleFileChange file w
  end.

(** The handlers run to completion one after another. *)
Definition run (events : list Event) (w : World) : World :=
  fold_left handle events w.

End Platform.

(** The initial [state]; the two lists are what [getSavedCreativesFromStorage]
    and [getSavedImagesFromStorage] returned. *)
Definition initialState (storedCreatives : list Creative.t)
    (storedImages : list SavedImage.t) : AppState :=
  mkAppState false false None storedCreatives None None None TabCreative
    [] [] (JsString.lit "1:1") (JsString.lit "bottom-right") [] None
    false None None [] (JsString.lit "Fotorealista") (JsString.lit "1:1")
    storedImages SourceGenerate None.

(** The list last written to storage under a key, if any was. *)
Definition lastSavedImages (effects : list Effect) : option (list SavedImage.t) :=
  fold_left (fun acc e => match e with SaveImagesToStorage l => Some l | _ => acc end)
            effects None.

Definition lastSavedCreatives (effects : list Effect) : option (list Creative.t) :=
  fold_left (fun acc e => match e with SaveCreativesToStorage l => Some l | _ => acc end)
            effects None.

(** Storage is not behind: whatever was last written under a key is the list
    the state holds. *)
Definition synced (w : World) : Prop :=
  (forall l, lastSavedImages (effects w) = Some l -> l = savedImages (state w)) /\
  (forall l, lastSavedCreatives (effects w) = Some l -> l = savedCreatives (state w)).

(** *** Worlds used in the examples *)

(** The image tab with a generated image waiting to be saved. *)
Definition imageReady : World :=
  mkWorld
    (mkAppState false false None [] None None None TabImage
       [] [] (JsString.lit "1:1") (JsString.lit "bottom-right") [] None
       false None (Some (JsString.lit "data:image/jpeg;base64,AAAA"))
       (JsString.lit "a red shoe") (JsString.lit "Fotorealista") (JsString.lit "1:1")
       [] SourceGenerate None)
    [].

(** Two copy options generated and shown, the first selected. *)
Definition creativeReady : World :=
  mkWorld
    (assign (initialState [] [])
       (SetGeneratedCreative
          (Some (GeneratedCreative.mk
                   (JsString.lit "data:base")
                   [JsString.lit "data:one"; JsString.lit "data:two"]
                   [CopyOption.mk (JsString.lit "Big Sale") (JsString.lit "Today only");
                    CopyOption.mk (JsString.lit "New Shoes") (JsString.lit "Walk far")]
                   (JsString.lit "shoes") (JsString.lit "shoe campaign")
                   (Some (JsString.lit "Shop Now")) 0))))
    [].

(** One saved creative, open in the edit modal. *)
Definition editing : World :=
  let c := Creative.mk (JsString.lit "creative-1") (JsString.lit "data:base")
             (Some (JsString.lit "data:one")) (JsString.lit "Big Sale")
             (JsString.lit "Today only") None (JsString.lit "shoes") 3 in
  mkWorld (assign (initialState [c] []) (SetEditingCreative (Some c))) [].

End App.

(** ** Strings *)

Lemma nonEmpty_true (s : jsstring) : JsString.nonEmpty s = true <-> s <> [].
Proof.
  unfold JsString.nonEmpty. destruct s; simpl; split; intros; try easy.
Qed.

Lemma nonEmpty_false (s : jsstring) : JsString.nonEmpty s = false <-> s = [].
Proof.
  unfold JsString.nonEmpty. destruct s; simpl; split; intros; try easy.
Qed.

Lemma eqb_true (a b : jsstring) : JsString.eqb a b = true <-> a = b.
Proof.
  unfold JsString.eqb. destruct (list_eq_dec N.eq_dec a b); split; intros; try easy.
Qed.

Lemma eqb_false (a b : jsstring) : JsString.eqb a b = false <-> a <> b.
Proof.
  unfold JsString.eqb. destruct (list_eq_dec N.eq_dec a b); split; intros; try easy.
Qed.

Lemma trimStart_nil (s : jsstring) :
  JsString.trimStart s = [] <-> Forall (fun c => JsString.isWhiteSpace c = true) s.
Proof.
  induction s as [|c r IH]; simpl.
  - split; auto.
  - destruct (JsString.isWhiteSpace c) eqn:E.
    + rewrite IH. split; intros H.
      * constructor; assumption.
      * inversion H; assumption.
    + split; intros H; [discriminate|].
      inversion H; congruence.
Qed.

Lemma trimStart_head (s : jsstring) :
  match JsString.trimStart s with
  | [] => True
  | c :: _ => JsString.isWhiteSpace c = false
  end.
Proof.
  induction s as [|c r IH]; simpl; [exact I|].
  destruct (JsString.isWhiteSpace c) eqn:E; [exact IH|exact E].
Qed.

Lemma trim_nil (s : jsstring) :
  JsString.trim s = [] <-> Forall (fun c => JsString.isWhiteSpace c = true) s.
Proof.
  unfold JsString.trim, JsString.trimEnd. split.
  - intros H. apply (f_equal (@rev _)) in H. rewrite rev_involutive in H.
    simpl in H. apply trimStart_nil in H.
    pose proof (trimStart_head s) as Hh.
    destruct (JsString.trimStart s) as [|c r] eqn:E.
    + now apply trimStart_nil.
    + exfalso. apply Forall_rev in H. rewrite rev_involutive in H.
      inversion H; congruence.
  - intros H. apply trimStart_nil in H. rewrite H. reflexivity.
Qed.

Lemma isBlank_true (text : jsstring) :
  isBlank text = true <-> Forall (fun c => JsString.isWhiteSpace c = true) text.
Proof.
  unfold isBlank. rewrite orb_true_iff, negb_true_iff, nonEmpty_false, eqb_true, trim_nil.
  split; [intros [->|H]; auto|auto].
Qed.

Lemma split_cons (sep : JsString.char) (s : jsstring) :
  exists h tl, JsString.split sep s = h :: tl.
Proof.
  destruct s as [|c r]; simpl; [now eexists; eexists|].
  destruct (c =? sep)%N; [now eexists; eexists|].
  destruct (JsString.split sep r); now eexists; eexists.
Qed.

Lemma join_cons2 (sep x y : jsstring) (r : list jsstring) :
  JsString.join sep (x :: y :: r) = x ++ sep ++ JsString.join sep (y :: r).
Proof. reflexivity. Qed.

Lemma join_split (sep : JsString.char) (s : jsstring) :
  JsString.join [sep] (JsString.split sep s) = s.
Proof.
  induction s as [|c r IH]; [reflexivity|].
  simpl JsString.split. destruct (split_cons sep r) as (h & tl & E).
  rewrite E in *. destruct (N.eqb_spec c sep) as [->|Hne].
  - rewrite join_cons2, IH. reflexivity.
  - destruct tl as [|y tl].
    + simpl in *. now rewrite IH.
    + rewrite join_cons2 in *. rewrite <- IH. reflexivity.
Qed.

Lemma join_app (sep : jsstring) (l r : list jsstring) :
  l <> [] -> r <> [] ->
  JsString.join sep (l ++ r) = JsString.join sep l ++ sep ++ JsString.join sep r.
Proof.
  intros Hl Hr. induction l as [|x l IH]; [easy|].
  destruct l as [|y l].
  - destruct r; [easy|reflexivity].
  - change ((x :: y :: l) ++ r) with (x :: y :: (l ++ r)).
    rewrite !join_cons2. change (y :: l ++ r) with ((y :: l) ++ r).
    rewrite IH by easy. now rewrite <- !app_assoc.
Qed.


Lemma join_prefix (sep : jsstring) (l r r' : list jsstring) :
  r <> [] -> r' <> [] -> JsString.join sep r = JsString.join sep r' ->
  JsString.join sep (l ++ r) = JsString.join sep (l ++ r').
Proof.
  intros Hr Hr' E. destruct l as [|x l]; [exact E|].
  rewrite !join_app by easy. now rewrite E.
Qed.

Lemma tokens_initNonEmpty (s : jsstring) :
  hasDoubleSpace s = false ->
  (startsWithSpace s = false -> initNonEmpty (tokens s)) /\
  initNonEmpty (List.tl (tokens s)).
Proof.
  unfold tokens. induction s as [|c r IH]; intros Hd.
  - simpl. auto.
  - assert (Hr : hasDoubleSpace r = false).
    { simpl in Hd. destruct r; [reflexivity|].
      now apply orb_false_iff in Hd. }
    specialize (IH Hr). destruct IH as [IH1 IH2].
    simpl JsString.split. simpl startsWithSpace.
    destruct (split_cons JsString.space r) as (h & ts & E). rewrite E in *.
    destruct (N.eqb_spec c JsString.space) as [->|Hne].
    + split; [discriminate|]. simpl List.tl. apply IH1.
      simpl in Hd. destruct r as [|d r']; [reflexivity|].
      apply orb_false_iff in Hd. destruct Hd as [Hd _]. simpl in *.
      exact Hd.
    + simpl List.tl in *. split; [|exact IH2]. intros _.
      simpl. destruct ts; [exact I|]. split; [discriminate|exact IH2].
Qed.

(** ** The wrap loop *)

#[local] Arguments wrapStep : simpl never.

Section WrapLoop.

Variable textWidth : Font -> jsstring -> Q.
Variable context : Context.

Lemma Qgtb_true (a b : Q) : Qgtb a b = true <-> b < a.
Proof.
  unfold Qgtb. rewrite negb_true_iff, <- not_true_iff_false, Qle_bool_iff.
  split; [apply Qnot_le_lt|apply Qlt_not_le].
Qed.

Lemma Qgtb_false (a b : Q) : Qgtb a b = false <-> a <= b.
Proof. unfold Qgtb. now rewrite negb_false_iff, Qle_bool_iff. Qed.

Lemma wrapStep_start (maxWidth : Q) (ls : list jsstring) (w : jsstring) :
  wrapStep textWidth context maxWidth (ls, []) w = (ls, w).
Proof. unfold wrapStep. simpl. now rewrite andb_false_r. Qed.

(** One iteration with a non-empty current line: break before the word, or
    append it. *)
Lemma wrapStep_cases (maxWidth : Q) (ls : list jsstring) (cur w : jsstring) :
  cur <> [] ->
  let testLine := cur ++ [JsString.space] ++ w in
  (maxWidth < measureText textWidth context testLine /\
   wrapStep textWidth context maxWidth (ls, cur) w = (ls ++ [cur], w)) \/
  (measureText textWidth context testLine <= maxWidth /\
   wrapStep textWidth context maxWidth (ls, cur) w = (ls, testLine)).
Proof.
  intros Hc testLine. unfold wrapStep.
  apply nonEmpty_true in Hc. rewrite Hc, andb_true_r. fold testLine.
  destruct (Qgtb (measureText textWidth context testLine) maxWidth) eqn:E.
  - left. split; [now apply Qgtb_true|reflexivity].
  - right. split; [now apply Qgtb_false|reflexivity].
Qed.

Lemma wrapLoop_cons (maxWidth : Q) (w : jsstring) (ws : list jsstring) st :
  wrapLoop textWidth context maxWidth (w :: ws) st =
  wrapLoop textWidth context maxWidth ws (wrapStep textWidth context maxWidth st w).
Proof. reflexivity. Qed.

Lemma wrap_blank (text : jsstring) (maxWidth lineHeight : Q) :
  isBlank text = true ->
  calculateWrappedTextHeight textWidth context text maxWidth lineHeight = mkWrap [] 0.
Proof.
  unfold calculateWrappedTextHeight, isBlank. now intros ->.
Qed.

Lemma wrap_nonblank (text : jsstring) (maxWidth lineHeight : Q) :
  isBlank text = false ->
  let ls := pushed (wrapLoop textWidth context maxWidth (tokens text) ([], [])) in
  calculateWrappedTextHeight textWidth context text maxWidth lineHeight =
  mkWrap ls (inject_Z (Z.of_nat (length ls)) * lineHeight).
Proof.
  unfold calculateWrappedTextHeight, isBlank, tokens, pushed. intros ->.
  now destruct (wrapLoop _ _ _ _ _).
Qed.

(** Gluing the lines of the loop back together gives the lines it started
    from followed by the words it consumed, when no word but the last is
    empty. *)
Lemma wrapLoop_unwrap (maxWidth : Q) (ws : list jsstring) :
  forall (ls : list jsstring) (cur : jsstring),
    initNonEmpty ws -> cur <> [] ->
    unwrap (pushed (wrapLoop textWidth context maxWidth ws (ls, cur))) =
    unwrap (ls ++ cur :: ws).
Proof.
  unfold unwrap.
  induction ws as [|w ws IH]; intros ls cur Hi Hc; [reflexivity|].
  rewrite wrapLoop_cons.
  assert (Hrec : forall ls' cur',
             ws = [] \/ cur' <> [] ->
             JsString.join [JsString.space]
               (pushed (wrapLoop textWidth context maxWidth ws (ls', cur'))) =
             JsString.join [JsString.space] (ls' ++ cur' :: ws)).
  { intros ls' cur' [->|Hc']; [reflexivity|].
    apply IH; [|exact Hc']. simpl in Hi. destruct ws; [exact I|apply Hi]. }
  destruct (wrapStep_cases maxWidth ls cur w Hc) as [[_ ->]|[_ ->]].
  - rewrite Hrec.
    + now rewrite <- app_assoc.
    + destruct ws; [now left|right; apply Hi].
  - rewrite Hrec.
    + apply join_prefix; try easy.
      destruct ws as [|v ws]; simpl; [reflexivity|].
      now rewrite <- !app_assoc.
    + right. now destruct cur.
Qed.

(** The loop from its initial state, on the tokens of a text. *)
Lemma wrapLoop_unwrap_tokens (maxWidth : Q) (text : jsstring) :
  initNonEmpty (tokens text) ->
  unwrap (pushed (wrapLoop textWidth context maxWidth (tokens text) ([], []))) = text.
Proof.
  intros Hi. rewrite <- (join_split JsString.space text) at 2.
  unfold tokens in *.
  destruct (split_cons JsString.space text) as (w & ws & E). rewrite E in *.
  rewrite wrapLoop_cons, wrapStep_start.
  destruct ws as [|v ws]; [reflexivity|].
  rewrite wrapLoop_unwrap; [reflexivity| |].
  - simpl in Hi. apply Hi.
  - simpl in Hi. apply Hi.
Qed.





End WrapLoop.

(** ** Two widths side by side *)

Section WrapWidths.

Variable textWidth : Font -> jsstring -> Q.
Variable context : Context.
Variables narrow wide : Q.
Hypothesis narrow_le_wide : narrow <= wide.
Hypothesis monotone : prefixMonotone (measureText textWidth context).

Lemma notBehind_step (s1 s2 : list jsstring * jsstring) (w : jsstring) :
  notBehind s1 s2 ->
  notBehind (wrapStep textWidth context narrow s1 w)
            (wrapStep textWidth context wide s2 w).
Proof.
  destruct s1 as [ls1 cur1], s2 as [ls2 cur2]. unfold notBehind. simpl.
  intros H.
  assert (Hw : forall p : jsstring, exists q, p ++ w = q ++ w) by (intros p; now exists p).
  destruct cur2 as [|c2 r2].
  - rewrite (wrapStep_start _ _ wide).
    destruct cur1 as [|c1 r1].
    + rewrite wrapStep_start. simpl.
      destruct H as [H|[H _]]; [now left|right]. split; [exact H|now exists []].
    + destruct (wrapStep_cases textWidth context narrow ls1 (c1 :: r1) w)
        as [[_ ->]|[_ ->]]; [discriminate| |]; simpl.
      * left. rewrite length_app. simpl. lia.
      * destruct H as [H|[H _]]; [now left|right]. split; [exact H|].
        exists ((c1 :: r1) ++ [JsString.space]). now rewrite <- app_assoc.
  - destruct (wrapStep_cases textWidth context wide ls2 (c2 :: r2) w)
      as [[Hwide ->]|[_ ->]]; [discriminate| |]; simpl.
    + destruct H as [H|[H [p Hp]]].
      * destruct cur1 as [|c1 r1].
        -- rewrite wrapStep_start. simpl. rewrite length_app. simpl.
           destruct (Nat.eq_dec (length ls2 + 1) (length ls1)) as [E|E].
           ++ right. split; [exact E|now exists []].
           ++ left. lia.
        -- destruct (wrapStep_cases textWidth context narrow ls1 (c1 :: r1) w)
             as [[_ ->]|[_ ->]]; [discriminate| |]; simpl; rewrite !length_app; simpl.
           ++ left. lia.
           ++ destruct (Nat.eq_dec (length ls2 + 1) (length ls1)) as [E|E].
              ** right. split; [exact E|].
                 exists ((c1 :: r1) ++ [JsString.space]). now rewrite <- app_assoc.
              ** left. lia.
      * assert (Hc1 : cur1 <> []) by (rewrite Hp; now destruct p).
        destruct (wrapStep_cases textWidth context narrow ls1 cur1 w Hc1)
          as [[_ ->]|[Hfit _]]; simpl.
        -- right. rewrite !length_app. simpl. split; [lia|now exists []].
        -- exfalso. rewrite Hp, <- app_assoc in Hfit.
           pose proof (monotone p ((c2 :: r2) ++ [JsString.space] ++ w)) as Hm.
           apply (Qlt_irrefl wide).
           eapply Qlt_le_trans; [exact Hwide|].
           eapply Qle_trans; [exact Hm|].
           eapply Qle_trans; [exact Hfit|exact narrow_le_wide].
    + destruct H as [H|[H [p Hp]]].
      * left. destruct cur1 as [|c1 r1].
        -- now rewrite wrapStep_start.
        -- destruct (wrapStep_cases textWidth context narrow ls1 (c1 :: r1) w)
             as [[_ ->]|[_ ->]]; [discriminate| |]; simpl; [|exact H].
           rewrite length_app. simpl. lia.
      * assert (Hc1 : cur1 <> []) by (rewrite Hp; now destruct p).
        destruct (wrapStep_cases textWidth context narrow ls1 cur1 w Hc1)
          as [[_ ->]|[_ ->]]; simpl.
        -- left. rewrite length_app. simpl. lia.
        -- right. split; [exact H|]. exists p. rewrite Hp. now rewrite <- !app_assoc.
Qed.

Lemma notBehind_loop (ws : list jsstring) :
  forall s1 s2,
    notBehind s1 s2 ->
    notBehind (wrapLoop textWidth context narrow ws s1)
              (wrapLoop textWidth context wide ws s2).
Proof.
  induction ws as [|w ws IH]; intros s1 s2 H; [exact H|].
  rewrite !wrapLoop_cons. apply IH, notBehind_step, H.
Qed.

Lemma wrapLoop_width_monotone (ws : list jsstring) :
  (length (pushed (wrapLoop textWidth context wide ws ([], []))) <=
   length (pushed (wrapLoop textWidth context narrow ws ([], []))))%nat.
Proof.
  pose proof (notBehind_loop ws ([], []) ([], [])) as H.
  unfold pushed. rewrite !length_app. simpl.
  destruct H as [H|[H _]]; [|lia|lia].
  right. split; [reflexivity|now exists []].
Qed.

End WrapWidths.

(** ** Properties of [calculateWrappedTextHeight] *)

Lemma nonBlank_isBlank (text : jsstring) : nonBlank text -> isBlank text = false.
Proof.
  intros H. apply not_true_iff_false. rewrite isBlank_true. intros HF.
  apply Exists_exists in H. destruct H as (c & Hin & Hc).
  rewrite Forall_forall in HF. specialize (HF c Hin). congruence.
Qed.

Lemma tokens_single (text : jsstring) :
  ~ In JsString.space text -> tokens text = [text].
Proof.
  unfold tokens. induction text as [|c r IH]; intros Hs; [reflexivity|].
  simpl. destruct (N.eqb_spec c JsString.space) as [->|_].
  - exfalso. apply Hs. now left.
  - rewrite IH; [reflexivity|]. intros Hin. apply Hs. now right.
Qed.

Lemma halfEm_prefixMonotone (context : Context) :
  0 <= fontSizePx (font (state context)) ->
  prefixMonotone (measureText halfEm context).
Proof.
  intros Hf p s. unfold measureText, halfEm.
  rewrite length_app, Nat2Z.inj_add, inject_Z_plus.
  assert (0 <= inject_Z (Z.of_nat (length p))).
  { change 0 with (inject_Z 0). rewrite <- Zle_Qle. lia. }
  nra.
Qed.

(** C1, as stated, fails: a text with one leading space has no double space,
    yet its empty first token is lost, and a text that is a single space
    yields no line at all. *)
Lemma wrap_coverage_counterexample :
  (hasDoubleSpace (JsString.lit " a") = false /\ 0 < 10 /\
   tokens (unwrap (lines (calculateWrappedTextHeight halfEm freshContext
                            (JsString.lit " a") 10 3)))
   <> tokens (JsString.lit " a")) /\
  (hasDoubleSpace (JsString.lit " ") = false /\
   tokens (unwrap (lines (calculateWrappedTextHeight halfEm freshContext
                            (JsString.lit " ") 10 3)))
   <> tokens (JsString.lit " ")).
Proof.
  repeat split; try reflexivity; vm_compute; discriminate.
Qed.

(** C1 (amended): for every measuring function and every width, a text with
    no double space that does not begin with a space and is empty or not
    white space only is reproduced exactly by gluing the returned lines with
    single spaces; so the token sequence is reproduced, nothing dropped,
    duplicated or reordered. *)
Theorem wrap_coverage
    (textWidth : Font -> jsstring -> Q) (context : Context)
    (text : jsstring) (maxWidth lineHeight : Q) :
  hasDoubleSpace text = false ->
  startsWithSpace text = false ->
  text = [] \/ nonBlank text ->
  let r := calculateWrappedTextHeight textWidth context text maxWidth lineHeight in
  unwrap (lines r) = text /\ tokens (unwrap (lines r)) = tokens text.
Proof.
  intros Hd Hs Hb r.
  assert (E : unwrap (lines r) = text).
  { subst r. destruct Hb as [->|Hb]; [reflexivity|].
    rewrite wrap_nonblank by now apply nonBlank_isBlank.
    simpl lines. apply wrapLoop_unwrap_tokens.
    now apply tokens_initNonEmpty. }
  split; [exact E|now rewrite E].
Qed.

Lemma wrap_coverage_witness :
  let text := JsString.lit "Summer Sale Starts Now " in
  let r := calculateWrappedTextHeight halfEm freshContext text 40 3 in
  length (lines r) = 4%nat /\ unwrap (lines r) = text /\
  tokens (unwrap (lines r)) = tokens text.
Proof.
  split; [reflexivity|].
  apply (wrap_coverage halfEm freshContext
           (JsString.lit "Summer Sale Starts Now ") 40 3).
  - reflexivity.
  - reflexivity.
  - right. left. reflexivity.
Defined.



(** C3: on the empty string and on any string of white space only, for every
    measuring function, width and line height, the result is exactly
    [{lines: [], height: 0}]. *)
Theorem wrap_empty
    (textWidth : Font -> jsstring -> Q) (context : Context)
    (text : jsstring) (maxWidth lineHeight : Q) :
  Forall (fun c => JsString.isWhiteSpace c = true) text ->
  calculateWrappedTextHeight textWidth context text maxWidth lineHeight = mkWrap [] 0.
Proof. intros H. now apply wrap_blank, isBlank_true. Qed.

Lemma wrap_empty_witness :
  calculateWrappedTextHeight halfEm freshContext (JsString.lit "") 10 3 = mkWrap [] 0 /\
  calculateWrappedTextHeight halfEm freshContext (JsString.lit "   ") 10 3 = mkWrap [] 0.
Proof.
  split.
  - apply (wrap_empty halfEm freshContext (JsString.lit "") 10 3). constructor.
  - apply (wrap_empty halfEm freshContext (JsString.lit "   ") 10 3).
    repeat constructor.
Defined.

(** C4: the result always satisfies [height = lines.length * lineHeight], and
    for a non-blank text it has at least one line. *)
Theorem wrap_result_invariant
    (textWidth : Font -> jsstring -> Q) (context : Context)
    (text : jsstring) (maxWidth lineHeight : Q) :
  let r := calculateWrappedTextHeight textWidth context text maxWidth lineHeight in
  height r == inject_Z (Z.of_nat (length (lines r))) * lineHeight /\
  (nonBlank text -> (1 <= length (lines r))%nat).
Proof.
  intros r. subst r. split.
  - destruct (isBlank text) eqn:Hb.
    + rewrite wrap_blank by assumption. simpl. ring.
    + rewrite wrap_nonblank by assumption. reflexivity.
  - intros Hn. rewrite wrap_nonblank by now apply nonBlank_isBlank.
    simpl lines. unfold pushed. rewrite length_app. simpl. lia.
Qed.

Lemma wrap_result_invariant_witness :
  let r := calculateWrappedTextHeight halfEm freshContext (JsString.lit "aa bb cc dd") 25 3 in
  height r == 2 * 3 /\ (1 <= length (lines r))%nat.
Proof.
  pose proof (wrap_result_invariant halfEm freshContext
                (JsString.lit "aa bb cc dd") 25 3) as [H1 H2].
  split.
  - exact H1.
  - apply H2. left. reflexivity.
Defined.

(** C5, as stated, fails: under a measure that is not monotone, widening from
    4 to 10 turns two lines into three. *)
Lemma wrap_monotone_counterexample :
  4 <= 10 /\
  ~ (length (lines (calculateWrappedTextHeight erratic freshContext
                      (JsString.lit "a b c d") 10 3)) <=
     length (lines (calculateWrappedTextHeight erratic freshContext
                      (JsString.lit "a b c d") 4 3)))%nat.
Proof.
  split; [discriminate|]. vm_compute. lia.
Qed.

(** C5 (amended): for every measuring function that never reports a smaller
    width when text is put in front of a string, and for a fixed text and
    line height, the number of lines does not grow with the width:
    [W1 <= W2] gives at most as many lines at [W2] as at [W1]. *)
Theorem wrap_monotone
    (textWidth : Font -> jsstring -> Q) (context : Context)
    (text : jsstring) (lineHeight W1 W2 : Q) :
  prefixMonotone (measureText textWidth context) ->
  W1 <= W2 ->
  (length (lines (calculateWrappedTextHeight textWidth context text W2 lineHeight)) <=
   length (lines (calculateWrappedTextHeight textWidth context text W1 lineHeight)))%nat.
Proof.
  intros Hm Hw. destruct (isBlank text) eqn:Hb.
  - rewrite !wrap_blank by assumption. simpl. lia.
  - rewrite !wrap_nonblank by assumption. simpl lines.
    now apply wrapLoop_width_monotone.
Qed.

Lemma wrap_monotone_witness :
  let text := JsString.lit "aa bb cc dd" in
  15 <= 25 /\
  (length (lines (calculateWrappedTextHeight halfEm freshContext text 25 3)) <=
   length (lines (calculateWrappedTextHeight halfEm freshContext text 15 3)))%nat.
Proof.
  split; [discriminate|].
  apply (wrap_monotone halfEm freshContext (JsString.lit "aa bb cc dd") 3 15 25).
  - apply halfEm_prefixMonotone. discriminate.
  - discriminate.
Defined.

(** ** Running the drawing statements *)

Section Compositor.

Variable textWidth : Font -> jsstring -> Q.

Lemma wrapLoop_font (c1 c2 : Context) (maxWidth : Q) (ws : list jsstring) :
  font (state c1) = font (state c2) ->
  forall st, wrapLoop textWidth c1 maxWidth ws st = wrapLoop textWidth c2 maxWidth ws st.
Proof.
  intros Hf. induction ws as [|w ws IH]; intros st; [reflexivity|].
  rewrite !wrapLoop_cons, IH. f_equal.
  unfold wrapStep, measureText. now rewrite Hf.
Qed.

(** The wrap reads the context's font and nothing else. *)
Lemma wrap_font (c1 c2 : Context) (text : jsstring) (maxWidth lineHeight : Q) :
  font (state c1) = font (state c2) ->
  calculateWrappedTextHeight textWidth c1 text maxWidth lineHeight =
  calculateWrappedTextHeight textWidth c2 text maxWidth lineHeight.
Proof.
  intros Hf. unfold calculateWrappedTextHeight.
  now rewrite (wrapLoop_font c1 c2).
Qed.

(** The dry run leaves the drawing untouched and computes [dryRun]. *)
Lemma contentHeightCalculation_run (canvasWidth : Q) (headline body : jsstring)
    (ctaText : option jsstring) (ctx : Context) :
  let s := styleCalculations canvasWidth in
  exists st,
    contentHeightCalculation textWidth s headline body ctaText ctx =
    (dryRun textWidth canvasWidth headline body ctaText, mkContext st (drawn ctx)) /\
    textAlign st = textAlign (state ctx) /\
    textBaseline st = textBaseline (state ctx) /\
    globalAlpha st = globalAlpha (state ctx).
Proof.
  intros s. unfold dryRun. fold s.
  unfold contentHeightCalculation, bind, setFont, modify, getContext, ret.
  cbn [state drawn fst snd font fillStyle textAlign textBaseline globalAlpha].
  destruct (ctaGiven ctaText); eexists; (split; [reflexivity|repeat split]).
Qed.

(** Writing wrapped lines issues calls and leaves the drawing state alone. *)
Lemma drawWrappedText_run (ls : list jsstring) (x lineHeight : Q) :
  forall (y : Q) (ctx : Context),
  exists ops,
    drawWrappedText ls x y lineHeight ctx = (tt, mkContext (state ctx) (drawn ctx ++ ops)) /\
    length ops = length ls.
Proof.
  induction ls as [|l ls IH]; intros y ctx.
  - exists []. simpl. unfold ret. rewrite app_nil_r. now destruct ctx.
  - simpl. unfold bind, fillText, issue.
    destruct (IH (y + lineHeight) (mkContext (state ctx) (drawn ctx ++ [(state ctx, FillText l x y)])))
      as (ops & E & Hl).
    rewrite E. cbn [state drawn]. eexists. rewrite <- app_assoc. split; [reflexivity|].
    simpl. now rewrite Hl.
Qed.

(** The background: one rectangle from [safeRectY] to the bottom edge. *)
Lemma drawBackground_run (canvasWidth canvasHeight : Q) (s : Style)
    (total : Q) (ctx : Context) :
  let y := Qmax 0 (canvasHeight - (total + padding s * 2)) in
  exists st,
    drawBackground canvasWidth canvasHeight s total ctx =
    (y, mkContext st (drawn ctx ++ [(st, FillRect 0 y canvasWidth (canvasHeight - y))])) /\
    fillStyle st = "rgba(0, 0, 0, 0.65)"%string /\
    globalAlpha st = globalAlpha (state ctx).
Proof. intros y. eexists. repeat split. Qed.

(** The button: its rectangle, then its label. *)
Lemma drawCtaButton_run (canvasWidth canvasHeight : Q) (s : Style)
    (ctaBlockHeight : Q) (ctaText : option jsstring) (currentY : Q) (ctx : Context) :
  let ctaFont := mkFont 700 (bodyFontSize s * 1.1) InterSansSerif in
  let natural := currentY + padding s in
  let y := if Qgtb (natural + ctaBlockHeight) canvasHeight
           then canvasHeight - ctaBlockHeight - (padding s / 2)
           else natural in
  let w := textWidth ctaFont (ctaLabel ctaText) + padding s * 2 in
  exists stB stT,
    drawn (snd (drawCtaButton textWidth canvasWidth canvasHeight s ctaBlockHeight
                  ctaText currentY ctx)) =
    drawn ctx ++
      [(stB, FillRect ((canvasWidth - w) / 2) y w ctaBlockHeight);
       (stT, FillText (ctaLabel ctaText) (canvasWidth / 2) (y + ctaBlockHeight / 2))] /\
    fillStyle stB = "#bb86fc"%string /\
    fillStyle stT = "#121212"%string /\
    font stT = ctaFont /\
    textBaseline stT = BaselineMiddle /\
    textAlign stT = textAlign (state ctx).
Proof.
  intros ctaFont natural y w.
  unfold drawCtaButton, bind, setFont, setFillStyle, setTextBaseline, modify,
    getContext, fillRect, fillText, issue, measureText.
  cbn [state drawn fst snd font fillStyle textAlign textBaseline globalAlpha].
  eexists. eexists. rewrite <- app_assoc. repeat split.
Qed.

(** The content: headline lines, body lines if any, the button if any. *)
Lemma drawContent_run (canvasWidth canvasHeight : Q) (s : Style) (c : Content)
    (ctaText : option jsstring) (safeRectY : Q) (ctx : Context) :
  let hasBody := Qgtb (height (bodyMetrics c)) 0 in
  let belowBody :=
    if hasBody
    then safeRectY + padding s + height (headlineMetrics c) + spacing s
         + height (bodyMetrics c)
    else safeRectY + padding s + height (headlineMetrics c) in
  exists texts,
    length texts =
      (length (lines (headlineMetrics c)) +
       (if hasBody then length (lines (bodyMetrics c)) else 0))%nat /\
    if Qgtb (ctaBlockHeight c) 0
    then
      exists stB stT x y w,
        drawn (snd (drawContent textWidth canvasWidth canvasHeight s c ctaText
                      safeRectY ctx)) =
        drawn ctx ++ texts ++
          [(stB, FillRect x y w (ctaBlockHeight c));
           (stT, FillText (ctaLabel ctaText) (canvasWidth / 2)
                          (y + ctaBlockHeight c / 2))] /\
        fillStyle stB = "#bb86fc"%string /\
        fillStyle stT = "#121212"%string /\
        font stT = mkFont 700 (bodyFontSize s * 1.1) InterSansSerif /\
        textBaseline stT = BaselineMiddle /\
        textAlign stT = AlignCenter /\
        w = textWidth (mkFont 700 (bodyFontSize s * 1.1) InterSansSerif)
                      (ctaLabel ctaText) + padding s * 2 /\
        x = (canvasWidth - w) / 2 /\
        y = (if Qgtb (belowBody + padding s + ctaBlockHeight c) canvasHeight
             then canvasHeight - ctaBlockHeight c - (padding s / 2)
             else belowBody + padding s)
    else
      drawn (snd (drawContent textWidth canvasWidth canvasHeight s c ctaText
                    safeRectY ctx)) = drawn ctx ++ texts.
Proof.
  intros hasBody belowBody. subst hasBody belowBody.
  unfold drawContent, bind, setTextAlign, setTextBaseline, setFillStyle, setFont, modify.
  cbn [state drawn fst snd font fillStyle textAlign textBaseline globalAlpha].
  match goal with
  | |- context [drawWrappedText ?ls ?x ?y ?lh ?c0] =>
      destruct (drawWrappedText_run ls x lh y c0) as (ops1 & E1 & L1)
  end.
  cbn [state drawn] in E1. rewrite E1. clear E1.
  cbn [state drawn fst snd font fillStyle textAlign textBaseline globalAlpha].
  destruct (Qgtb (height (bodyMetrics c)) 0).
  - match goal with
    | |- context [drawWrappedText (lines (bodyMetrics c)) ?x ?y ?lh ?c0] =>
        destruct (drawWrappedText_run (lines (bodyMetrics c)) x lh y c0)
          as (ops2 & E2 & L2)
    end.
    rewrite E2. clear E2. unfold ret.
    cbn [state drawn fst snd font fillStyle textAlign textBaseline globalAlpha].
    exists (ops1 ++ ops2). split; [rewrite length_app; lia|].
    destruct (Qgtb (ctaBlockHeight c) 0).
    + match goal with
      | |- context [drawCtaButton _ ?W ?H ?s0 ?h ?t ?y ?c0] =>
          destruct (drawCtaButton_run W H s0 h t y c0)
            as (stB & stT & E & F1 & F2 & F3 & F4 & F5)
      end.
      cbn [state drawn textAlign] in E, F5.
      do 5 eexists. rewrite E, <- !app_assoc. repeat split; assumption.
    + cbn [state drawn fst snd]. now rewrite app_assoc.
  - unfold ret.
    cbn [state drawn fst snd font fillStyle textAlign textBaseline globalAlpha].
    exists ops1. split; [lia|].
    destruct (Qgtb (ctaBlockHeight c) 0).
    + match goal with
      | |- context [drawCtaButton _ ?W ?H ?s0 ?h ?t ?y ?c0] =>
          destruct (drawCtaButton_run W H s0 h t y c0)
            as (stB & stT & E & F1 & F2 & F3 & F4 & F5)
      end.
      cbn [state drawn textAlign] in E, F5.
      do 5 eexists. rewrite E, <- !app_assoc. repeat split; assumption.
    + reflexivity.
Qed.

(** All the calls of the [onload] handler: the base image, the panel, the
    text lines, and the button with its label when there is one. *)
Lemma renderOnLoad_calls (baseImage : Image) (headline body : jsstring)
    (ctaText : option jsstring) (ctx : Context) :
  let W := inject_Z (imgWidth baseImage) in
  let H := inject_Z (imgHeight baseImage) in
  let s := styleCalculations W in
  let c := dryRun textWidth W headline body ctaText in
  let top := Qmax 0 (H - (totalContentHeight c + padding s * 2)) in
  let hasBody := Qgtb (height (bodyMetrics c)) 0 in
  let belowBody :=
    if hasBody
    then top + padding s + height (headlineMetrics c) + spacing s
         + height (bodyMetrics c)
    else top + padding s + height (headlineMetrics c) in
  let result := drawn (snd (renderOnLoad textWidth baseImage headline body ctaText ctx)) in
  exists stP texts,
    fillStyle stP = "rgba(0, 0, 0, 0.65)"%string /\
    length texts =
      (length (lines (headlineMetrics c)) +
       (if hasBody then length (lines (bodyMetrics c)) else 0))%nat /\
    if Qgtb (ctaBlockHeight c) 0
    then
      exists stB stT x y w,
        result =
        drawn ctx ++
          [(state ctx, DrawImage baseImage 0 0); (stP, FillRect 0 top W (H - top))] ++
          texts ++
          [(stB, FillRect x y w (ctaBlockHeight c));
           (stT, FillText (ctaLabel ctaText) (W / 2) (y + ctaBlockHeight c / 2))] /\
        fillStyle stB = "#bb86fc"%string /\
        fillStyle stT = "#121212"%string /\
        font stT = mkFont 700 (bodyFontSize s * 1.1) InterSansSerif /\
        textBaseline stT = BaselineMiddle /\
        textAlign stT = AlignCenter /\
        w = textWidth (mkFont 700 (bodyFontSize s * 1.1) InterSansSerif)
                      (ctaLabel ctaText) + padding s * 2 /\
        x = (W - w) / 2 /\
        y = (if Qgtb (belowBody + padding s + ctaBlockHeight c) H
             then H - ctaBlockHeight c - (padding s / 2)
             else belowBody + padding s)
    else
      result =
      drawn ctx ++
        [(state ctx, DrawImage baseImage 0 0); (stP, FillRect 0 top W (H - top))] ++
        texts.
Proof.
  intros W H s c top hasBody belowBody result. subst result.
  unfold renderOnLoad, bind, drawImage, issue. fold W H s.
  match goal with
  | |- context [contentHeightCalculation _ _ _ _ _ ?c0] =>
      destruct (contentHeightCalculation_run W headline body ctaText c0)
        as (st1 & E1 & _)
  end.
  fold s c in E1. rewrite E1. clear E1.
  cbn [state drawn fst snd].
  match goal with
  | |- context [drawBackground _ _ _ _ ?c0] =>
      destruct (drawBackground_run W H s (totalContentHeight c) c0)
        as (stP & E2 & F2 & _)
  end.
  fold top in E2. rewrite E2. clear E2.
  cbn [state drawn fst snd].
  match goal with
  | |- context [drawContent _ _ _ _ _ _ _ ?c0] =>
      destruct (drawContent_run W H s c ctaText top c0) as (texts & L & R)
  end.
  cbn [state drawn fst snd] in R.
  exists stP, texts. split; [exact F2|]. split; [exact L|].
  fold hasBody belowBody in R |- *.
  destruct (Qgtb (ctaBlockHeight c) 0).
  - destruct R as (stB & stT & x & y & w & E & R).
    exists stB, stT, x, y, w. split; [|exact R].
    rewrite E, <- !app_assoc. reflexivity.
  - rewrite R, <- !app_assoc. reflexivity.
Qed.

(** *** The values of the dry run *)

Lemma dryRun_fields (canvasWidth : Q) (headline body : jsstring)
    (ctaText : option jsstring) :
  let s := styleCalculations canvasWidth in
  let c := dryRun textWidth canvasWidth headline body ctaText in
  let base :=
    if Qgtb (height (bodyMetrics c)) 0
    then 0 + height (headlineMetrics c) + (spacing s + height (bodyMetrics c))
    else 0 + height (headlineMetrics c) in
  (exists c1, headlineMetrics c =
     calculateWrappedTextHeight textWidth c1 headline (contentWidth s) (headlineLineHeight s)) /\
  (exists c2, bodyMetrics c =
     calculateWrappedTextHeight textWidth c2 body (contentWidth s) (bodyLineHeight s)) /\
  ctaBlockHeight c = (if ctaGiven ctaText then bodyFontSize s * 1.1 * 2.4 else 0) /\
  totalContentHeight c =
    (if ctaGiven ctaText then base + (padding s + bodyFontSize s * 1.1 * 2.4) else base).
Proof.
  intros s c base. subst c base. unfold dryRun. fold s.
  unfold contentHeightCalculation, bind, setFont, modify, getContext, ret.
  cbn [state drawn fst snd font fillStyle textAlign textBaseline globalAlpha].
  destruct (ctaGiven ctaText);
    cbn [fst headlineMetrics bodyMetrics ctaBlockHeight totalContentHeight];
    (split; [eexists; reflexivity|]); (split; [eexists; reflexivity|]);
    split; reflexivity.
Qed.

Lemma style_facts (canvasWidth : Q) :
  let s := styleCalculations canvasWidth in
  padding s == 0.06 * canvasWidth /\
  24 <= headlineFontSize s /\ 16 <= bodyFontSize s /\
  headlineLineHeight s == headlineFontSize s * 1.3 /\
  bodyLineHeight s == bodyFontSize s * 1.4 /\
  spacing s == bodyFontSize s * 1.2.
Proof.
  intros s. subst s. unfold styleCalculations.
  cbn [padding headlineFontSize bodyFontSize headlineLineHeight bodyLineHeight spacing].
  repeat split; try reflexivity; try lra; apply Q.le_max_l.
Qed.

Lemma wrap_height_nonneg (context : Context) (text : jsstring) (maxWidth lineHeight : Q) :
  0 <= lineHeight ->
  0 <= height (calculateWrappedTextHeight textWidth context text maxWidth lineHeight).
Proof.
  intros HL. destruct (isBlank text) eqn:Hb.
  - rewrite wrap_blank by assumption. simpl. lra.
  - rewrite wrap_nonblank by assumption. cbn [height].
    apply Qmult_le_0_compat; [|exact HL].
    change 0 with (inject_Z 0). rewrite <- Zle_Qle. lia.
Qed.

Lemma dryRun_total_nonneg (canvasWidth : Q) (headline body : jsstring)
    (ctaText : option jsstring) :
  0 <= canvasWidth ->
  0 <= totalContentHeight (dryRun textWidth canvasWidth headline body ctaText).
Proof.
  intros HW.
  destruct (dryRun_fields canvasWidth headline body ctaText)
    as ((c1 & Eh) & (c2 & Eb) & _ & Et).
  destruct (style_facts canvasWidth) as (Hp & Hh & Hb & Ehl & Ebl & Esp).
  rewrite Et.
  assert (0 <= height (headlineMetrics (dryRun textWidth canvasWidth headline body ctaText))).
  { rewrite Eh. apply wrap_height_nonneg. lra. }
  assert (0 <= height (bodyMetrics (dryRun textWidth canvasWidth headline body ctaText))).
  { rewrite Eb. apply wrap_height_nonneg. lra. }
  destruct (ctaGiven ctaText), (Qgtb _ 0); lra.
Qed.

Lemma ctaGiven_nonBlank (label : jsstring) :
  nonBlank label -> ctaGiven (Some label) = true.
Proof.
  intros Hn. unfold ctaGiven. apply andb_true_iff. split; apply nonEmpty_true.
  - intros ->. inversion Hn.
  - intros Ht. apply trim_nil in Ht. apply Exists_exists in Hn.
    destruct Hn as (ch & Hin & Hc). rewrite Forall_forall in Ht.
    specialize (Ht ch Hin). congruence.
Qed.


(** With a call-to-action the block height is positive. *)
Lemma dryRun_cta_positive (canvasWidth : Q) (headline body : jsstring)
    (ctaText : option jsstring) :
  ctaGiven ctaText = true ->
  Qgtb (ctaBlockHeight (dryRun textWidth canvasWidth headline body ctaText)) 0 = true.
Proof.
  intros Hg.
  destruct (dryRun_fields canvasWidth headline body ctaText) as (_ & _ & Ec & _).
  destruct (style_facts canvasWidth) as (_ & _ & Hb & _).
  rewrite Ec, Hg. apply Qgtb_true. lra.
Qed.

End Compositor.

(** ** Properties of the text compositor *)

Lemma Qmax_0_cases (a : Q) :
  (a <= 0 /\ Qmax 0 a == 0) \/ (0 < a /\ Qmax 0 a == a).
Proof.
  destruct (Q.max_spec 0 a) as [[H E]|[H E]]; [right|left]; split; assumption.
Qed.

(** C6: the panel is the first call after the base image: a rectangle over
    the full canvas width whose top is [max(0, canvasHeight -
    (totalContentHeight + 2*padding))] and whose height is [canvasHeight]
    minus that top, so between 0 and [canvasHeight]; when the content is at
    least as tall as the canvas the top is 0 and the height is [canvasHeight]. *)
Theorem panel_clamp
    (textWidth : Font -> jsstring -> Q) (baseImage : Image)
    (headline body : jsstring) (ctaText : option jsstring) (ctx : Context) :
  (0 < imgWidth baseImage)%Z -> (0 < imgHeight baseImage)%Z ->
  let W := inject_Z (imgWidth baseImage) in
  let H := inject_Z (imgHeight baseImage) in
  let s := styleCalculations W in
  let total := totalContentHeight (dryRun textWidth W headline body ctaText) in
  exists stP top h later,
    drawn (snd (renderOnLoad textWidth baseImage headline body ctaText ctx)) =
      drawn ctx ++
      (state ctx, DrawImage baseImage 0 0) :: (stP, FillRect 0 top W h) :: later /\
    top == Qmax 0 (H - (total + 2 * padding s)) /\
    h == H - top /\
    0 <= h /\ h <= H /\
    (H <= total -> top == 0 /\ h == H).
Proof.
  intros HW HH W H s total.
  assert (HW' : 0 < W) by (subst W; change 0 with (inject_Z 0); now rewrite <- Zlt_Qlt).
  assert (HH' : 0 < H) by (subst H; change 0 with (inject_Z 0); now rewrite <- Zlt_Qlt).
  pose proof (dryRun_total_nonneg textWidth W headline body ctaText (Qlt_le_weak _ _ HW')) as Ht.
  destruct (style_facts W) as (Hp & _). fold s in Hp. fold total in Ht.
  destruct (renderOnLoad_calls textWidth baseImage headline body ctaText ctx)
    as (stP & texts & _ & _ & R).
  fold W H s total in R.
  set (top := Qmax 0 (H - (total + padding s * 2))) in *.
  assert (Hlater : exists later,
    drawn (snd (renderOnLoad textWidth baseImage headline body ctaText ctx)) =
      drawn ctx ++
      (state ctx, DrawImage baseImage 0 0) :: (stP, FillRect 0 top W (H - top)) :: later).
  { destruct (Qgtb _ 0) in R.
    - destruct R as (stB & stT & x & y & w & E & _). rewrite E. eexists. reflexivity.
    - rewrite R. eexists. reflexivity. }
  destruct Hlater as (later & E).
  exists stP, top, (H - top), later.
  split; [exact E|].
  destruct (Qmax_0_cases (H - (total + padding s * 2))) as [[Ha Ea]|[Ha Ea]];
    destruct (Qmax_0_cases (H - (total + 2 * padding s))) as [[Hb Eb]|[Hb Eb]];
    fold top in Ea; repeat split; try (intros Hge; split); lra.
Qed.

Lemma panel_clamp_witness :
  let img := mkImage 100 10 in
  exists stP later,
    drawn (snd (renderOnLoad halfEm img (JsString.lit "Hi") (JsString.lit "")
                  (Some (JsString.lit "Go")) freshContext)) =
      (state freshContext, DrawImage img 0 0) :: (stP, FillRect 0 0 100 10) :: later.
Proof.
  intros img.
  destruct (panel_clamp halfEm img (JsString.lit "Hi") (JsString.lit "")
              (Some (JsString.lit "Go")) freshContext) as (stP & top & h & later & E & _);
    [reflexivity|reflexivity|].
  vm_compute in E. vm_compute. exists stP, later.
  injection E as E1 E2 E3 E4. subst. reflexivity.
Defined.



(** On a 100 x 10 canvas the button does not fit: it is moved so that its
    bottom edge is at 10 - 6/2 = 7. *)
Example cta_clamped_on_short_canvas :
  match nth_error
          (drawn (snd (renderOnLoad halfEm (mkImage 100 10) (JsString.lit "Hi")
                         (JsString.lit "") (Some (JsString.lit "Go")) freshContext))) 3
  with
  | Some (st, FillRect x y w h) =>
      fillStyle st = "#bb86fc"%string /\ y + h == 7 /\ x + w / 2 == 50
  | _ => False
  end.
Proof. vm_compute. repeat split; reflexivity. Qed.

(** C8: with a non-blank call-to-action, the button rectangle is as wide as
    the label measured in the bold font of size [bodyFontSize * 1.1] plus
    twice the padding, its left edge is at [(canvasWidth - width) / 2], so it
    is centred on the canvas, and the label is written centre-aligned at
    [canvasWidth / 2], on the middle baseline at the button's vertical
    midpoint. *)
Theorem cta_button_geometry
    (textWidth : Font -> jsstring -> Q) (baseImage : Image)
    (headline body label : jsstring) (ctx : Context) :
  nonBlank label ->
  let W := inject_Z (imgWidth baseImage) in
  let s := styleCalculations W in
  let ctaFont := mkFont 700 (bodyFontSize s * 1.1) InterSansSerif in
  exists before stB stT x y w h tx ty,
    drawn (snd (renderOnLoad textWidth baseImage headline body (Some label) ctx)) =
      before ++ [(stB, FillRect x y w h); (stT, FillText label tx ty)] /\
    w == textWidth ctaFont label + 2 * padding s /\
    x == (W - w) / 2 /\
    x + w / 2 == W / 2 /\
    font stT = ctaFont /\
    textAlign stT = AlignCenter /\
    textBaseline stT = BaselineMiddle /\
    tx == W / 2 /\
    ty == y + h / 2.
Proof.
  intros Hn W s ctaFont.
  destruct (renderOnLoad_calls textWidth baseImage headline body (Some label) ctx)
    as (stP & texts & _ & _ & R).
  fold W s in R.
  rewrite (dryRun_cta_positive textWidth W headline body (Some label)
             (ctaGiven_nonBlank label Hn)) in R.
  destruct R as (stB & stT & x & y & w & E & _ & _ & Ff & Fb & Fa & Ew & Ex & _).
  simpl ctaLabel in E, Ew. fold ctaFont in Ew, Ff.
  rewrite !app_assoc in E.
  do 9 eexists. split; [exact E|].
  subst x w. repeat split; try assumption; try reflexivity; field.
Qed.

Lemma cta_button_geometry_witness :
  let img := mkImage 1080 1920 in
  let headline := JsString.lit "Summer Sale Starts Now" in
  let body := JsString.lit "Everything must go" in
  let label := JsString.lit "Shop Now" in
  let s := styleCalculations 1080 in
  let ctaFont := mkFont 700 (bodyFontSize s * 1.1) InterSansSerif in
  nonBlank label /\
  exists before stB stT x y w h tx ty,
    drawn (snd (renderOnLoad halfEm img headline body (Some label) freshContext)) =
      before ++ [(stB, FillRect x y w h); (stT, FillText label tx ty)] /\
    w == halfEm ctaFont label + 2 * padding s /\
    x == (1080 - w) / 2 /\
    x + w / 2 == 1080 / 2 /\
    font stT = ctaFont /\
    textAlign stT = AlignCenter /\
    textBaseline stT = BaselineMiddle /\
    tx == 1080 / 2 /\
    ty == y + h / 2.
Proof.
  intros img headline body label s ctaFont.
  assert (Hn : nonBlank label) by (left; reflexivity).
  split; [exact Hn|].
  exact (cta_button_geometry halfEm img headline body label freshContext Hn).
Defined.



(** A blank creative on a 1000 x 1000 image: the panel alone, 120 high. *)
Example blank_panel_on_square_canvas :
  match drawn (snd (renderOnLoad halfEm (mkImage 1000 1000) []
                      (JsString.lit "  ") None freshContext)) with
  | [(_, DrawImage _ _ _); (st, FillRect x y w h)] =>
      x == 0 /\ y == 880 /\ w == 1000 /\ h == 120
  | _ => False
  end.
Proof. vm_compute. repeat split; reflexivity. Qed.

(** ** Properties of the logo compositor *)



(** An unrecognised position is placed as bottom-right. *)
Example logo_default_position :
  logoOnLoad (mkImage 500 500) (mkImage 100 50) (JsString.lit "center") freshContext =
  logoOnLoad (mkImage 500 500) (mkImage 100 50) (JsString.lit "bottom-right") freshContext.
Proof. reflexivity. Qed.

(** ** Further properties of the word wrap *)

Section WrapMore.

Variable textWidth : Font -> jsstring -> Q.
Variable context : Context.
Variable maxWidth : Q.

(** One iteration commits at most one line. *)
Lemma wrapStep_lines_bound (st : list jsstring * jsstring) (w : jsstring) :
  (length (fst (wrapStep textWidth context maxWidth st w)) <= length (fst st) + 1)%nat.
Proof.
  destruct st as [ls cur]. destruct cur as [|c cur].
  - rewrite wrapStep_start. simpl. lia.
  - destruct (wrapStep_cases textWidth context maxWidth ls (c :: cur) w)
      as [[_ ->]|[_ ->]]; [discriminate| |]; simpl; [rewrite length_app; simpl|]; lia.
Qed.

Lemma wrapLoop_lines_bound (ws : list jsstring) :
  forall st,
    (length (fst (wrapLoop textWidth context maxWidth ws st)) <=
     length (fst st) + length ws)%nat.
Proof.
  induction ws as [|w ws IH]; intros st; [simpl; lia|].
  rewrite wrapLoop_cons. specialize (IH (wrapStep textWidth context maxWidth st w)).
  pose proof (wrapStep_lines_bound st w). simpl. lia.
Qed.

Lemma split_no_sep (sep : JsString.char) (s : jsstring) :
  Forall (fun w => ~ In sep w) (JsString.split sep s).
Proof.
  induction s as [|c r IH]; simpl.
  - constructor; [intros []|constructor].
  - destruct (split_cons sep r) as (h & ts & E). rewrite E in *.
    inversion IH as [|? ? Hh Hts]; subst.
    destruct (N.eqb_spec c sep) as [->|Hne].
    + constructor; [intros []|]. constructor; assumption.
    + constructor; [|assumption]. intros [Hc|Hc]; [congruence|contradiction].
Qed.

Lemma firstWord_single (w : jsstring) : ~ In JsString.space w -> firstWord w = w.
Proof. intros H. unfold firstWord. now rewrite tokens_single. Qed.

Lemma firstWord_extend (cur rest : jsstring) :
  firstWord (cur ++ [JsString.space] ++ rest) = firstWord cur.
Proof.
  unfold firstWord, tokens. induction cur as [|c cur IH]; [reflexivity|].
  simpl in *. destruct (c =? JsString.space)%N; [reflexivity|].
  destruct (split_cons JsString.space (cur ++ JsString.space :: rest)) as (h & ts & E).
  destruct (split_cons JsString.space cur) as (h' & ts' & E').
  rewrite E, E' in *. simpl in *. now rewrite IH.
Qed.

Lemma breaksForced_last (ls : list jsstring) (cur cur' : jsstring) :
  firstWord cur' = firstWord cur ->
  breaksForced (measureText textWidth context) maxWidth (ls ++ [cur]) ->
  breaksForced (measureText textWidth context) maxWidth (ls ++ [cur']).
Proof.
  intros Hf. induction ls as [|a ls IH]; [simpl; auto|].
  destruct ls as [|b ls].
  - simpl. rewrite Hf. auto.
  - simpl app. intros [H1 H2]. split; [exact H1|]. apply IH. exact H2.
Qed.

Lemma breaksForced_push (ls : list jsstring) (cur w : jsstring) :
  maxWidth < measureText textWidth context (cur ++ [JsString.space] ++ firstWord w) ->
  breaksForced (measureText textWidth context) maxWidth (ls ++ [cur]) ->
  breaksForced (measureText textWidth context) maxWidth ((ls ++ [cur]) ++ [w]).
Proof.
  intros Hw. induction ls as [|a ls IH]; [simpl; auto|].
  destruct ls as [|b ls].
  - simpl. intros [H1 _]. auto.
  - simpl app. intros [H1 H2]. split; [exact H1|]. apply IH. exact H2.
Qed.

(** The loop only ever breaks a line when it has to. *)
Lemma wrapLoop_breaksForced (ws : list jsstring) :
  forall (ls : list jsstring) (cur : jsstring),
    Forall (fun w => ~ In JsString.space w) ws ->
    initNonEmpty ws -> cur <> [] ->
    breaksForced (measureText textWidth context) maxWidth (ls ++ [cur]) ->
    breaksForced (measureText textWidth context) maxWidth
      (pushed (wrapLoop textWidth context maxWidth ws (ls, cur))).
Proof.
  induction ws as [|w ws IH]; intros ls cur Hns Hi Hc Hb; [exact Hb|].
  rewrite wrapLoop_cons. inversion Hns as [|? ? Hw Hws]; subst.
  assert (Hi' : initNonEmpty ws) by (simpl in Hi; destruct ws; [exact I|apply Hi]).
  destruct (wrapStep_cases textWidth context maxWidth ls cur w Hc) as [[Hover ->]|[_ ->]].
  - assert (Hb' : breaksForced (measureText textWidth context) maxWidth ((ls ++ [cur]) ++ [w])).
    { apply breaksForced_push; [|exact Hb]. now rewrite firstWord_single. }
    destruct ws as [|v ws]; [exact Hb'|].
    apply IH; try assumption. simpl in Hi. apply Hi.
  - apply IH; try assumption.
    + now destruct cur.
    + eapply breaksForced_last; [|exact Hb]. apply firstWord_extend.
Qed.

(** A current line on which everything that follows fits is never broken. *)
Lemma wrapLoop_all_fit (ws : list jsstring) :
  forall cur : jsstring,
    cur <> [] ->
    (forall p q, unwrap (cur :: ws) = p ++ q -> measureText textWidth context p <= maxWidth) ->
    wrapLoop textWidth context maxWidth ws ([], cur) = ([], unwrap (cur :: ws)).
Proof.
  unfold unwrap.
  induction ws as [|w ws IH]; intros cur Hc Hfit; [reflexivity|].
  rewrite wrapLoop_cons.
  assert (E : JsString.join [JsString.space] ((cur ++ [JsString.space] ++ w) :: ws) =
              JsString.join [JsString.space] (cur :: w :: ws)).
  { destruct ws as [|v ws]; simpl; [reflexivity|]. now rewrite <- !app_assoc. }
  destruct (wrapStep_cases textWidth context maxWidth [] cur w Hc) as [[Hover _]|[_ ->]].
  - exfalso. apply (Qlt_irrefl maxWidth). eapply Qlt_le_trans; [exact Hover|].
    destruct ws as [|v ws].
    + apply (Hfit _ []). simpl. now rewrite app_nil_r.
    + apply (Hfit _ ([JsString.space] ++ JsString.join [JsString.space] (v :: ws))).
      rewrite !join_cons2. now rewrite <- !app_assoc.
  - rewrite IH.
    + now rewrite E.
    + now destruct cur.
    + intros p q Hpq. apply (Hfit p q). now rewrite <- E.
Qed.

(** When no two of the words fit on a line together, every word is a line. *)
Lemma wrapLoop_none_fit (ws : list jsstring) :
  forall (ls : list jsstring) (cur : jsstring),
    initNonEmpty ws -> cur <> [] ->
    (forall a b, In a (cur :: ws) -> In b ws ->
       maxWidth < measureText textWidth context (a ++ [JsString.space] ++ b)) ->
    pushed (wrapLoop textWidth context maxWidth ws (ls, cur)) = ls ++ cur :: ws.
Proof.
  induction ws as [|w ws IH]; intros ls cur Hi Hc Hwide; [reflexivity|].
  rewrite wrapLoop_cons.
  destruct (wrapStep_cases textWidth context maxWidth ls cur w Hc) as [[_ ->]|[Hfit _]].
  - destruct ws as [|v ws].
    + unfold pushed. simpl. now rewrite <- app_assoc.
    + rewrite IH.
      * now rewrite <- app_assoc.
      * simpl in Hi. apply Hi.
      * simpl in Hi. apply Hi.
      * intros a b Ha Hb. apply Hwide; now right.
  - exfalso. apply (Qlt_irrefl maxWidth). eapply Qlt_le_trans; [|exact Hfit].
    apply Hwide; now left.
Qed.

End WrapMore.

Lemma tokens_head_nonEmpty (text : jsstring) :
  text <> [] -> startsWithSpace text = false ->
  exists w ws, tokens text = w :: ws /\ w <> [].
Proof.
  unfold tokens. destruct text as [|c r]; [easy|]. intros _ Hs. simpl in *.
  rewrite Hs. destruct (split_cons JsString.space r) as (h & ts & ->).
  now exists (c :: h), ts.
Qed.

Lemma nonBlank_nonEmpty (text : jsstring) : nonBlank text -> text <> [].
Proof. intros H ->. inversion H. Qed.

(** X1: the wrap never returns more lines than the text has tokens. *)
Theorem wrap_line_count_bound
    (textWidth : Font -> jsstring -> Q) (context : Context)
    (text : jsstring) (maxWidth lineHeight : Q) :
  (length (lines (calculateWrappedTextHeight textWidth context text maxWidth lineHeight))
   <= length (tokens text))%nat.
Proof.
  destruct (isBlank text) eqn:Hb.
  - rewrite wrap_blank by assumption. simpl. lia.
  - rewrite wrap_nonblank by assumption. simpl lines. unfold tokens.
    destruct (split_cons JsString.space text) as (w & ws & ->).
    rewrite wrapLoop_cons, wrapStep_start. unfold pushed. rewrite length_app.
    pose proof (wrapLoop_lines_bound textWidth context maxWidth ws ([], w)).
    simpl in *. lia.
Qed.

(** X2: the wrap is greedy.  For a text with no double space that does not
    begin with a space, wherever one returned line ends and the next begins,
    the earlier line followed by a space and the first word of the next
    measures more than [maxWidth]: no break is made that could be avoided. *)
Theorem wrap_breaks_forced
    (textWidth : Font -> jsstring -> Q) (context : Context)
    (text : jsstring) (maxWidth lineHeight : Q) :
  hasDoubleSpace text = false ->
  startsWithSpace text = false ->
  breaksForced (measureText textWidth context) maxWidth
    (lines (calculateWrappedTextHeight textWidth context text maxWidth lineHeight)).
Proof.
  intros Hd Hs. destruct (isBlank text) eqn:Hb.
  - rewrite wrap_blank by assumption. exact I.
  - rewrite wrap_nonblank by assumption. simpl lines.
    pose proof (proj1 (tokens_initNonEmpty text Hd) Hs) as Hi.
    pose proof (split_no_sep JsString.space text) as Hns. fold (tokens text) in Hns.
    destruct (tokens text) as [|w ws] eqn:E; [exact I|].
    rewrite wrapLoop_cons, wrapStep_start.
    destruct ws as [|v ws]; [exact I|].
    inversion Hns; subst.
    apply (wrapLoop_breaksForced textWidth context maxWidth (v :: ws) [] w).
    + assumption.
    + simpl in Hi. apply Hi.
    + simpl in Hi. apply Hi.
    + exact I.
Qed.

Lemma wrap_breaks_forced_witness :
  let text := JsString.lit "aa bb cc dd" in
  lines (calculateWrappedTextHeight halfEm freshContext text 25 3) =
    [JsString.lit "aa bb"; JsString.lit "cc dd"] /\
  breaksForced (measureText halfEm freshContext) 25
    (lines (calculateWrappedTextHeight halfEm freshContext text 25 3)).
Proof.
  split; [reflexivity|].
  apply (wrap_breaks_forced halfEm freshContext (JsString.lit "aa bb cc dd") 25 3);
    reflexivity.
Defined.

(** X3: a non-blank text that does not begin with a space and all of whose
    beginnings measure at most [maxWidth] is returned as a single line, the
    text itself. *)
Theorem wrap_fitting_text_single_line
    (textWidth : Font -> jsstring -> Q) (context : Context)
    (text : jsstring) (maxWidth lineHeight : Q) :
  nonBlank text ->
  startsWithSpace text = false ->
  (forall p q, text = p ++ q -> measureText textWidth context p <= maxWidth) ->
  calculateWrappedTextHeight textWidth context text maxWidth lineHeight =
  mkWrap [text] (1 * lineHeight).
Proof.
  intros Hn Hs Hfit.
  rewrite wrap_nonblank by now apply nonBlank_isBlank.
  destruct (tokens_head_nonEmpty text (nonBlank_nonEmpty text Hn) Hs) as (w & ws & E & Hw).
  pose proof (join_split JsString.space text) as Hj. fold (tokens text) in Hj.
  rewrite E in *. rewrite wrapLoop_cons, wrapStep_start.
  rewrite (wrapLoop_all_fit textWidth context maxWidth ws w Hw).
  - unfold pushed. cbn [fst snd app]. unfold unwrap. rewrite Hj. reflexivity.
  - intros p q Hpq. apply (Hfit p q). unfold unwrap in Hpq. now rewrite <- Hj.
Qed.

Lemma halfEm_prefix_fits (text p q : jsstring) :
  text = p ++ q ->
  measureText halfEm freshContext p <= measureText halfEm freshContext text.
Proof.
  intros ->. unfold measureText, halfEm. simpl fontSizePx.
  rewrite length_app, Nat2Z.inj_add, inject_Z_plus.
  assert (0 <= inject_Z (Z.of_nat (length q))).
  { change 0 with (inject_Z 0). rewrite <- Zle_Qle. lia. }
  lra.
Qed.

Lemma wrap_fitting_text_single_line_witness :
  let text := JsString.lit "Shop Now" in
  calculateWrappedTextHeight halfEm freshContext text 40 3 = mkWrap [text] (1 * 3).
Proof.
  intros text.
  apply (wrap_fitting_text_single_line halfEm freshContext text 40 3).
  - left. reflexivity.
  - reflexivity.
  - intros p q Hpq. eapply Qle_trans; [apply (halfEm_prefix_fits text p q Hpq)|].
    discriminate.
Defined.

(** X4: when no two tokens of the text fit on a line together, and the text
    is non-blank, has no double space and does not begin with a space, the
    returned lines are exactly its tokens, one word per line. *)
Theorem wrap_one_word_per_line
    (textWidth : Font -> jsstring -> Q) (context : Context)
    (text : jsstring) (maxWidth lineHeight : Q) :
  nonBlank text ->
  hasDoubleSpace text = false ->
  startsWithSpace text = false ->
  (forall a b, In a (tokens text) -> In b (tokens text) ->
     maxWidth < measureText textWidth context (a ++ [JsString.space] ++ b)) ->
  lines (calculateWrappedTextHeight textWidth context text maxWidth lineHeight) =
  tokens text.
Proof.
  intros Hn Hd Hs Hwide.
  rewrite wrap_nonblank by now apply nonBlank_isBlank. simpl lines.
  pose proof (proj1 (tokens_initNonEmpty text Hd) Hs) as Hi.
  destruct (tokens text) as [|w ws] eqn:E.
  { unfold tokens in E. destruct (split_cons JsString.space text) as (h & ts & E').
    congruence. }
  rewrite wrapLoop_cons, wrapStep_start.
  destruct ws as [|v ws]; [reflexivity|].
  rewrite wrapLoop_none_fit; [reflexivity| | |].
  - simpl in Hi. apply Hi.
  - simpl in Hi. apply Hi.
  - intros a b Ha Hb. apply Hwide; [exact Ha|now right].
Qed.

Lemma wrap_one_word_per_line_witness :
  let text := JsString.lit "Big Sale" in
  lines (calculateWrappedTextHeight halfEm freshContext text 25 3) =
  [JsString.lit "Big"; JsString.lit "Sale"].
Proof.
  intros text.
  apply (wrap_one_word_per_line halfEm freshContext text 25 3).
  - left. reflexivity.
  - reflexivity.
  - reflexivity.
  - intros a b Ha Hb. vm_compute in Ha, Hb.
    destruct Ha as [<-|[<-|[]]]; destruct Hb as [<-|[<-|[]]]; reflexivity.
Defined.

(** ** Further properties of the compositors *)

Section CompositorMore.

Variable textWidth : Font -> jsstring -> Q.




(** A wrap result with a positive line height has no height only when it has
    no lines. *)
Lemma wrap_no_height_no_lines (context : Context) (text : jsstring)
    (maxWidth lineHeight : Q) :
  0 < lineHeight ->
  Qgtb (height (calculateWrappedTextHeight textWidth context text maxWidth lineHeight)) 0
  = negb (isBlank text) /\
  (isBlank text = true ->
   lines (calculateWrappedTextHeight textWidth context text maxWidth lineHeight) = []).
Proof.
  intros HL. destruct (isBlank text) eqn:Hb.
  - rewrite wrap_blank by assumption. split; reflexivity.
  - rewrite wrap_nonblank by assumption. split; [|discriminate].
    cbn [height negb]. apply Qgtb_true. unfold pushed. rewrite length_app. simpl length.
    apply Qmult_lt_0_compat; [|exact HL].
    change 0 with (inject_Z 0). rewrite <- Zlt_Qlt. lia.
Qed.

End CompositorMore.






(** X8: the handler issues exactly two calls for the base image and the
    panel, one per wrapped headline line, one per wrapped body line, and two
    more, the button and its label, exactly when a non-blank call-to-action
    is given. *)
Theorem render_call_count
    (textWidth : Font -> jsstring -> Q) (baseImage : Image)
    (headline body : jsstring) (ctaText : option jsstring) (ctx : Context) :
  let c := dryRun textWidth (inject_Z (imgWidth baseImage)) headline body ctaText in
  length (drawn (snd (renderOnLoad textWidth baseImage headline body ctaText ctx))) =
  (length (drawn ctx) + 2 + length (lines (headlineMetrics c))
   + length (lines (bodyMetrics c)) + (if ctaGiven ctaText then 2 else 0))%nat.
Proof.
  intros c.
  destruct (renderOnLoad_calls textWidth baseImage headline body ctaText ctx)
    as (stP & texts & _ & L & R).
  set (W := inject_Z (imgWidth baseImage)) in *. fold c in L, R.
  destruct (dryRun_fields textWidth W headline body ctaText) as (_ & (c2 & Eb) & Ec & _).
  fold c in Eb, Ec.
  destruct (style_facts W) as (_ & _ & Hbf & _ & Ebl & _).
  assert (Hpos : 0 < bodyLineHeight (styleCalculations W)) by lra.
  destruct (wrap_no_height_no_lines textWidth c2 body (contentWidth (styleCalculations W))
              (bodyLineHeight (styleCalculations W)) Hpos) as (Hg & Hn).
  rewrite <- Eb in Hg, Hn.
  assert (Lt : length texts =
               (length (lines (headlineMetrics c)) + length (lines (bodyMetrics c)))%nat).
  { rewrite L, Hg. destruct (isBlank body); simpl; [|reflexivity].
    now rewrite (Hn eq_refl). }
  assert (Hcta : Qgtb (ctaBlockHeight c) 0 = ctaGiven ctaText).
  { rewrite Ec. destruct (ctaGiven ctaText) eqn:G; [|reflexivity].
    apply Qgtb_true. lra. }
  rewrite Hcta in R. destruct (ctaGiven ctaText).
  - destruct R as (stB & stT & x & y & w & E & _). rewrite E.
    rewrite !length_app, Lt. simpl. lia.
  - rewrite R. rewrite !length_app, Lt. simpl. lia.
Qed.



(** ** The saved lists *)

Lemma eqb_refl (a : jsstring) : JsString.eqb a a = true.
Proof. now apply eqb_true. Qed.

Lemma assign_savedImages (s : App.AppState) (a : App.Assign) :
  App.savedImages (App.assign s a) =
  match a with App.SetSavedImages v => v | _ => App.savedImages s end.
Proof. destruct a; reflexivity. Qed.

Lemma assign_savedCreatives (s : App.AppState) (a : App.Assign) :
  App.savedCreatives (App.assign s a) =
  match a with App.SetSavedCreatives v => v | _ => App.savedCreatives s end.
Proof. destruct a; reflexivity. Qed.

(** Keys other than [savedImages] leave the saved images alone. *)
Lemma patch_keeps_savedImages (newState : list App.Assign) :
  App.hasSavedImages newState = false ->
  forall s, App.savedImages (fold_left App.assign newState s) = App.savedImages s.
Proof.
  induction newState as [|a l IH]; intros H s; [reflexivity|].
  simpl in *. apply orb_false_iff in H. destruct H as [Ha Hl].
  rewrite IH by assumption. rewrite assign_savedImages. destruct a; try reflexivity.
  discriminate.
Qed.

Lemma patch_keeps_savedCreatives (newState : list App.Assign) :
  App.hasSavedCreatives newState = false ->
  forall s, App.savedCreatives (fold_left App.assign newState s) = App.savedCreatives s.
Proof.
  induction newState as [|a l IH]; intros H s; [reflexivity|].
  simpl in *. apply orb_false_iff in H. destruct H as [Ha Hl].
  rewrite IH by assumption. rewrite assign_savedCreatives. destruct a; try reflexivity.
  discriminate.
Qed.

Lemma lastSavedImages_app (l l' : list App.Effect) :
  App.lastSavedImages (l ++ l') =
  match App.lastSavedImages l' with
  | Some v => Some v
  | None => App.lastSavedImages l
  end.
Proof.
  unfold App.lastSavedImages. rewrite fold_left_app.
  generalize (fold_left
                (fun acc e => match e with App.SaveImagesToStorage v => Some v | _ => acc end)
                l None).
  induction l' as [|e l' IH] using rev_ind; intros acc.
  - reflexivity.
  - rewrite !fold_left_app. simpl. destruct e; try apply IH; reflexivity.
Qed.

Lemma lastSavedCreatives_app (l l' : list App.Effect) :
  App.lastSavedCreatives (l ++ l') =
  match App.lastSavedCreatives l' with
  | Some v => Some v
  | None => App.lastSavedCreatives l
  end.
Proof.
  unfold App.lastSavedCreatives. rewrite fold_left_app.
  generalize (fold_left
                (fun acc e => match e with App.SaveCreativesToStorage v => Some v | _ => acc end)
                l None).
  induction l' as [|e l' IH] using rev_ind; intros acc.
  - reflexivity.
  - rewrite !fold_left_app. simpl. destruct e; try apply IH; reflexivity.
Qed.

(** [setState] writes a saved list whenever it assigns one. *)
Lemma setState_synced (newState : list App.Assign) (w : App.World) :
  App.synced w -> App.synced (App.setState newState w).
Proof.
  intros [Hi Hc]. unfold App.synced, App.setState. cbn [App.state App.effects].
  split; intros l.
  - rewrite lastSavedImages_app.
    destruct (App.hasSavedCreatives newState), (App.hasSavedImages newState) eqn:E;
      cbn; intros H; try (injection H as <-; reflexivity);
      rewrite patch_keeps_savedImages by assumption; now apply Hi.
  - rewrite lastSavedCreatives_app.
    destruct (App.hasSavedCreatives newState) eqn:E, (App.hasSavedImages newState);
      cbn; intros H; try (injection H as <-; reflexivity);
      rewrite patch_keeps_savedCreatives by assumption; now apply Hc.
Qed.

Lemma not_in_urls (u : jsstring) (l : list App.SavedImage.t) :
  existsb (fun img => JsString.eqb (App.SavedImage.url img) u) l = false ->
  ~ In u (map App.SavedImage.url l).
Proof.
  induction l as [|img l IH]; simpl; intros H; [tauto|].
  apply orb_false_iff in H. destruct H as [H1 H2].
  intros [E|Hin]; [|now apply IH].
  apply eqb_false in H1. congruence.
Qed.

(** Dropping saved images keeps their URLs distinct. *)
Lemma urls_distinct_after_filter (keep : App.SavedImage.t -> bool)
    (images : list App.SavedImage.t) :
  NoDup (map App.SavedImage.url images) ->
  NoDup (map App.SavedImage.url (filter keep images)).
Proof.
  induction images as [|img images IH]; simpl; intros Hd; [constructor|].
  inversion Hd as [|? ? Hfresh Hrest]; subst.
  destruct (keep img); simpl; [|now apply IH].
  constructor; [|now apply IH].
  intros Hin. apply Hfresh.
  apply in_map_iff in Hin. destruct Hin as (other & Eurl & Hother).
  apply filter_In in Hother. apply in_map_iff. exists other. tauto.
Qed.

Lemma NoDup_snoc {A} (l : list A) (a : A) : NoDup l -> ~ In a l -> NoDup (l ++ [a]).
Proof.
  induction l as [|b l IH]; simpl; intros Hd Hn.
  - constructor; [tauto|constructor].
  - inversion Hd; subst. constructor.
    + rewrite in_app_iff. simpl. intuition.
    + apply IH; tauto.
Qed.

Section Handlers.

Variable textWidth : Font -> jsstring -> Q.
Variable contextAvailable : bool.
Variable decode : jsstring -> option Image.
Variable toDataURL : list (DrawState * Call) -> jsstring.

Lemma handle_synced (w : App.World) (e : App.Event) :
  App.synced w ->
  App.synced (App.handle textWidth contextAvailable decode toDataURL w e).
Proof.
  intros H. destruct e; simpl.
  - unfold App.handleSaveGeneratedImage.
    destruct (App.generatedImageUrl _); [|exact H].
    destruct (_ || _); [exact H|]. destruct (existsb _ _); [exact H|].
    now apply setState_synced.
  - now apply setState_synced.
  - unfold App.handleSelectCopy. destruct (App.generatedCreative _); [|exact H].
    now apply setState_synced.
  - unfold App.handleSaveCreative. destruct (App.generatedCreative _); [|exact H].
    destruct (nth_error _ _); [|exact H]. now apply setState_synced.
  - unfold App.handleDeleteCreative. destruct confirmed; [|exact H].
    now apply setState_synced.
  - now apply setState_synced.
  - now apply setState_synced.
  - unfold App.handleUpdateCreative. destruct (App.editingCreative _); [|exact H].
    destruct (renderTextOnImage _ _ _ _ _ _); now repeat apply setState_synced.
  - now apply setState_synced.
  - now apply setState_synced.
  - now apply setState_synced.
  - now apply setState_synced.
  - unfold App.handleFileChange. destruct file; [|exact H]. now apply setState_synced.
Qed.

Lemma handle_urls_distinct (w : App.World) (e : App.Event) :
  NoDup (map App.SavedImage.url (App.savedImages (App.state w))) ->
  NoDup (map App.SavedImage.url
           (App.savedImages
              (App.state (App.handle textWidth contextAvailable decode toDataURL w e)))).
Proof.
  intros H. destruct e; simpl.
  - unfold App.handleSaveGeneratedImage.
    destruct (App.generatedImageUrl _) as [u|]; [|exact H].
    destruct (_ || _); [exact H|]. destruct (existsb _ _) eqn:E; [exact H|].
    cbn. rewrite map_app. apply NoDup_snoc; [exact H|]. now apply not_in_urls.
  - cbn. now apply urls_distinct_after_filter.
  - unfold App.handleSelectCopy. destruct (App.generatedCreative _); exact H.
  - unfold App.handleSaveCreative. destruct (App.generatedCreative _); [|exact H].
    destruct (nth_error _ _); exact H.
  - unfold App.handleDeleteCreative. destruct confirmed; exact H.
  - exact H.
  - exact H.
  - unfold App.handleUpdateCreative. destruct (App.editingCreative _); [|exact H].
    destruct (renderTextOnImage _ _ _ _ _ _); exact H.
  - exact H.
  - exact H.
  - exact H.
  - exact H.
  - unfold App.handleFileChange. destruct file; exact H.
Qed.

End Handlers.

(** X10: whatever actions of the ones modelled follow one another, the saved
    images never come to hold the same URL twice. *)
Theorem saved_image_urls_stay_distinct
    (textWidth : Font -> jsstring -> Q) (contextAvailable : bool)
    (decode : jsstring -> option Image)
    (toDataURL : list (DrawState * Call) -> jsstring)
    (events : list App.Event) (w : App.World) :
  NoDup (map App.SavedImage.url (App.savedImages (App.state w))) ->
  NoDup (map App.SavedImage.url
           (App.savedImages
              (App.state (App.run textWidth contextAvailable decode toDataURL events w)))).
Proof.
  revert w. induction events as [|e events IH]; intros w H; [exact H|].
  simpl. apply IH. now apply handle_urls_distinct.
Qed.

Lemma saved_image_urls_stay_distinct_witness :
  let w := App.run halfEm true (fun _ => None) (fun _ => [])
             [App.SaveGeneratedImage 1700000000000; App.TabClick App.TabCreative;
              App.SaveGeneratedImage 1700000000500] App.imageReady in
  length (App.savedImages (App.state w)) = 1%nat /\
  NoDup (map App.SavedImage.url (App.savedImages (App.state w))).
Proof.
  split; [reflexivity|].
  apply (saved_image_urls_stay_distinct halfEm true (fun _ => None) (fun _ => [])).
  constructor.
Defined.

(** X11: saving the generated image a second time does nothing at all: the
    state and the effects are those after the first save. *)
Theorem save_generated_image_idempotent (now later : N) (w : App.World) :
  App.handleSaveGeneratedImage later (App.handleSaveGeneratedImage now w) =
  App.handleSaveGeneratedImage now w.
Proof.
  destruct (App.generatedImageUrl (App.state w)) as [u|] eqn:Eu.
  2: { assert (E : forall n, App.handleSaveGeneratedImage n w = w)
         by (intros n; unfold App.handleSaveGeneratedImage; now rewrite Eu).
       now rewrite !E. }
  destruct (negb (App.truthy u) || negb (App.truthy (App.imageGenPrompt (App.state w))))
    eqn:Eg.
  { assert (E : forall n, App.handleSaveGeneratedImage n w = w)
      by (intros n; unfold App.handleSaveGeneratedImage; now rewrite Eu, Eg).
    now rewrite !E. }
  destruct (existsb (fun img => JsString.eqb (App.SavedImage.url img) u)
                    (App.savedImages (App.state w))) eqn:Ee.
  { assert (E : forall n, App.handleSaveGeneratedImage n w = w)
      by (intros n; unfold App.handleSaveGeneratedImage; now rewrite Eu, Eg, Ee).
    now rewrite !E. }
  assert (E : App.handleSaveGeneratedImage now w =
              App.setState
                [App.SetSavedImages
                   (App.savedImages (App.state w) ++
                    [App.SavedImage.mk (JsString.lit "savedimg-" ++ App.numberToString now)
                       u (App.imageGenPrompt (App.state w))])] w)
    by (unfold App.handleSaveGeneratedImage; now rewrite Eu, Eg, Ee).
  rewrite E. unfold App.handleSaveGeneratedImage.
  cbn [App.state App.setState fold_left App.assign App.generatedImageUrl
       App.imageGenPrompt App.savedImages].
  rewrite Eu, Eg, existsb_app.
  cbn [existsb App.SavedImage.url]. rewrite eqb_refl, !orb_true_r. reflexivity.
Qed.

Lemma filter_other_ids (imageId : jsstring) (l : list App.SavedImage.t) :
  ~ In imageId (map App.SavedImage.id l) ->
  filter (fun img => negb (JsString.eqb (App.SavedImage.id img) imageId)) l = l.
Proof.
  induction l as [|img l IH]; simpl; intros H; [reflexivity|].
  destruct (JsString.eqb (App.SavedImage.id img) imageId) eqn:E.
  - apply eqb_true in E. tauto.
  - simpl. rewrite IH; tauto.
Qed.

Lemma no_url_existsb (u : jsstring) (l : list App.SavedImage.t) :
  ~ In u (map App.SavedImage.url l) ->
  existsb (fun img => JsString.eqb (App.SavedImage.url img) u) l = false.
Proof.
  induction l as [|img l IH]; simpl; intros H; [reflexivity|].
  rewrite IH by tauto. rewrite orb_false_r. apply eqb_false. tauto.
Qed.

(** X12: saving a generated image appends one entry with that URL and the id
    [savedimg-<now>]; deleting that id afterwards gives back exactly the
    state before the save, provided no image saved earlier carries the same
    id. *)
Theorem save_then_delete_restores (now : N) (w : App.World) (u : jsstring) :
  let newId := JsString.lit "savedimg-" ++ App.numberToString now in
  let saved := App.handleSaveGeneratedImage now w in
  App.generatedImageUrl (App.state w) = Some u ->
  u <> [] ->
  App.imageGenPrompt (App.state w) <> [] ->
  ~ In u (map App.SavedImage.url (App.savedImages (App.state w))) ->
  ~ In newId (map App.SavedImage.id (App.savedImages (App.state w))) ->
  App.savedImages (App.state saved) =
    App.savedImages (App.state w) ++
    [App.SavedImage.mk newId u (App.imageGenPrompt (App.state w))] /\
  App.state (App.handleDeleteSavedImage newId saved) = App.state w.
Proof.
  intros newId saved Hu Hne Hp Hurl Hid. subst saved.
  unfold App.handleSaveGeneratedImage. rewrite Hu.
  apply nonEmpty_true in Hne. apply nonEmpty_true in Hp.
  unfold App.truthy. rewrite Hne, Hp. cbn [negb orb].
  rewrite (no_url_existsb u _ Hurl).
  split; [reflexivity|].
  unfold App.handleDeleteSavedImage, App.setState.
  cbn [App.state App.effects fold_left App.assign App.savedImages].
  rewrite filter_app, (filter_other_ids newId _ Hid).
  cbn [filter App.SavedImage.id]. fold newId. rewrite eqb_refl. cbn [negb].
  rewrite app_nil_r. destruct w as [s eff]. destruct s. reflexivity.
Qed.

Lemma save_then_delete_restores_witness :
  let newId := JsString.lit "savedimg-1700000000000" in
  let saved := App.handleSaveGeneratedImage 1700000000000 App.imageReady in
  App.savedImages (App.state saved) =
    [App.SavedImage.mk newId (JsString.lit "data:image/jpeg;base64,AAAA")
       (JsString.lit "a red shoe")] /\
  App.state (App.handleDeleteSavedImage newId saved) = App.state App.imageReady.
Proof.
  apply (save_then_delete_restores 1700000000000 App.imageReady
           (JsString.lit "data:image/jpeg;base64,AAAA")).
  - reflexivity.
  - discriminate.
  - discriminate.
  - intros [].
  - intros [].
Defined.

(** X13: rating a creative keeps the saved creatives in place: every entry
    with another id is unchanged, every entry with that id changes in its
    rating only, whatever number is given; and of two ratings of the same id
    the later one stands. *)
Theorem set_rating_changes_only_rating (id : jsstring) (rating earlier : Q)
    (w : App.World) :
  let before := App.savedCreatives (App.state w) in
  let after := App.savedCreatives (App.state (App.handleSetRating id rating w)) in
  map App.Creative.id after = map App.Creative.id before /\
  (forall i c,
     nth_error before i = Some c ->
     nth_error after i =
       Some (if JsString.eqb (App.Creative.id c) id
             then App.Creative.mk (App.Creative.id c)
                    (App.Creative.baseImageUrlWithLogo c) (App.Creative.finalImageUrl c)
                    (App.Creative.headline c) (App.Creative.body c)
                    (App.Creative.ctaText c) (App.Creative.prompt c) rating
             else c)) /\
  App.savedCreatives
    (App.state (App.handleSetRating id rating (App.handleSetRating id earlier w))) = after.
Proof.
  intros before after. subst before after.
  unfold App.handleSetRating, App.setState.
  cbn [App.state App.effects fold_left App.assign App.savedCreatives].
  generalize (App.savedCreatives (App.state w)). intros cs.
  split; [|split].
  - rewrite map_map. apply map_ext. intros c.
    now destruct (JsString.eqb (App.Creative.id c) id).
  - intros i c Hi. now rewrite nth_error_map, Hi.
  - rewrite map_map. apply map_ext. intros c.
    destruct (JsString.eqb (App.Creative.id c) id) eqn:E; cbn [App.Creative.id];
      now rewrite E.
Qed.

(** X14: with generated copy on screen, choosing option [k] and then saving
    stores one new creative, with rating 0, holding the headline and body of
    option [k] and the composite image at position [k], clears the generated
    creative and writes the saved creatives to storage; when there is no
    option [k] the save throws instead and nothing is saved. *)
Theorem select_then_save_stores_selected (now : N) (k : nat) (w : App.World)
    (g : App.GeneratedCreative.t) :
  App.generatedCreative (App.state w) = Some g ->
  let selected := App.handleSelectCopy k w in
  (forall copy,
     nth_error (App.GeneratedCreative.copyOptions g) k = Some copy ->
     exists w' c,
       App.handleSaveCreative now selected = App.Returned w' /\
       App.savedCreatives (App.state w') = App.savedCreatives (App.state w) ++ [c] /\
       App.Creative.headline c = App.CopyOption.headline copy /\
       App.Creative.body c = App.CopyOption.body copy /\
       App.Creative.finalImageUrl c =
         nth_error (App.GeneratedCreative.compositeImageUrls g) k /\
       App.Creative.rating c = 0 /\
       App.generatedCreative (App.state w') = None /\
       App.lastSavedCreatives (App.effects w') = Some (App.savedCreatives (App.state w'))) /\
  (nth_error (App.GeneratedCreative.copyOptions g) k = None ->
   App.handleSaveCreative now selected = App.Threw selected /\
   App.savedCreatives (App.state selected) = App.savedCreatives (App.state w)).
Proof.
  intros Hg selected. subst selected.
  unfold App.handleSelectCopy. rewrite Hg.
  unfold App.handleSaveCreative, App.setState.
  cbn [App.state App.effects fold_left App.assign App.generatedCreative
       App.savedCreatives App.GeneratedCreative.selectedIndex
       App.GeneratedCreative.copyOptions App.GeneratedCreative.compositeImageUrls
       App.GeneratedCreative.baseImageUrlWithLogo App.GeneratedCreative.ctaText
       App.GeneratedCreative.imagePrompt].
  split.
  - intros copy Hk. rewrite Hk. do 2 eexists. split; [reflexivity|].
    cbn [App.state App.effects App.savedCreatives App.generatedCreative
         App.Creative.headline App.Creative.body App.Creative.finalImageUrl
         App.Creative.rating].
    repeat split.
    rewrite !lastSavedCreatives_app. reflexivity.
  - intros Hk. rewrite Hk. split; reflexivity.
Qed.

Lemma select_then_save_stores_selected_witness :
  exists w' c,
    App.handleSaveCreative 1700000000000 (App.handleSelectCopy 1 App.creativeReady)
      = App.Returned w' /\
    App.savedCreatives (App.state w') = [c] /\
    App.Creative.headline c = JsString.lit "New Shoes" /\
    App.Creative.finalImageUrl c = Some (JsString.lit "data:two") /\
    App.generatedCreative (App.state w') = None.
Proof.
  destruct (select_then_save_stores_selected 1700000000000 1 App.creativeReady _ eq_refl)
    as [Hsel _].
  destruct (Hsel _ eq_refl) as (w' & c & E & Hs & Hh & _ & Hf & _ & Hg & _).
  exists w', c. repeat split; assumption.
Defined.

(** X15: the storage calls never fall behind the state.  If the list last
    handed to [saveImagesToStorage] and the one last handed to
    [saveCreativesToStorage], when there is one, are the lists the state
    holds, this is still so after any sequence of the actions modelled: a
    handler that changes a saved list always hands it to storage. *)
Theorem storage_stays_synced
    (textWidth : Font -> jsstring -> Q) (contextAvailable : bool)
    (decode : jsstring -> option Image)
    (toDataURL : list (DrawState * Call) -> jsstring)
    (events : list App.Event) (w : App.World) :
  App.synced w ->
  App.synced (App.run textWidth contextAvailable decode toDataURL events w).
Proof.
  revert w. induction events as [|e events IH]; intros w H; [exact H|].
  simpl. apply IH. now apply handle_synced.
Qed.

Lemma storage_stays_synced_witness :
  let w := App.run halfEm true (fun _ => None) (fun _ => [])
             [App.SaveGeneratedImage 1700000000000;
              App.DeleteSavedImage (JsString.lit "savedimg-1700000000000");
              App.SaveGeneratedImage 1700000000500] App.imageReady in
  App.lastSavedImages (App.effects w) = Some (App.savedImages (App.state w)) /\
  App.synced w.
Proof.
  split; [reflexivity|].
  apply (storage_stays_synced halfEm true (fun _ => None) (fun _ => [])).
  split; intros l H; discriminate.
Defined.

(** X16: submitting the edit form while a creative is being edited always
    ends with the busy flag off and with the saved creatives in place, ids,
    ratings and prompts as before.  If no 2D context can be had or the base
    image does not decode, the saved creatives are untouched, the modal stays
    open and the error is set; otherwise the modal is closed and every saved
    creative with the edited id takes the new headline, body and
    call-to-action and the image the compositor draws for them. *)
Theorem update_creative_outcomes
    (textWidth : Font -> jsstring -> Q) (contextAvailable : bool)
    (decode : jsstring -> option Image)
    (toDataURL : list (DrawState * Call) -> jsstring)
    (updatedHeadline updatedBody updatedCta : jsstring)
    (w : App.World) (editing : App.Creative.t) :
  App.editingCreative (App.state w) = Some editing ->
  let before := App.savedCreatives (App.state w) in
  let w' := App.handleUpdateCreative textWidth contextAvailable decode toDataURL
              updatedHeadline updatedBody updatedCta w in
  let after := App.savedCreatives (App.state w') in
  App.isLoading (App.state w') = false /\
  map App.Creative.id after = map App.Creative.id before /\
  map App.Creative.rating after = map App.Creative.rating before /\
  map App.Creative.prompt after = map App.Creative.prompt before /\
  (contextAvailable = false \/
   decode (App.Creative.baseImageUrlWithLogo editing) = None ->
   after = before /\
   App.editingCreative (App.state w') = Some editing /\
   App.error (App.state w') = Some (JsString.lit "Falha ao atualizar o criativo.")) /\
  (forall baseImage,
     contextAvailable = true ->
     decode (App.Creative.baseImageUrlWithLogo editing) = Some baseImage ->
     App.editingCreative (App.state w') = None /\
     forall c,
       In c after -> App.Creative.id c = App.Creative.id editing ->
       App.Creative.headline c = updatedHeadline /\
       App.Creative.body c = updatedBody /\
       App.Creative.ctaText c = Some updatedCta /\
       App.Creative.finalImageUrl c =
         Some (toDataURL
                 (drawn (snd (renderOnLoad textWidth baseImage updatedHeadline
                                updatedBody (Some updatedCta) freshContext))))).
Proof.
  intros He before w' after. subst before w' after.
  unfold App.handleUpdateCreative. rewrite He.
  unfold renderTextOnImage.
  destruct contextAvailable;
    [destruct (decode (App.Creative.baseImageUrlWithLogo editing)) as [img|] eqn:Ed|];
    unfold App.setState;
    cbn [App.state App.effects fold_left App.assign App.savedCreatives App.isLoading
         App.editingCreative App.error].
  - split; [reflexivity|].
    generalize (App.savedCreatives (App.state w)). intros cs.
    split; [|split; [|split; [|split]]].
    + rewrite map_map. apply map_ext. intros c.
      now destruct (JsString.eqb (App.Creative.id c) (App.Creative.id editing)).
    + rewrite map_map. apply map_ext. intros c.
      now destruct (JsString.eqb (App.Creative.id c) (App.Creative.id editing)).
    + rewrite map_map. apply map_ext. intros c.
      now destruct (JsString.eqb (App.Creative.id c) (App.Creative.id editing)).
    + intros [H|H]; discriminate.
    + intros baseImage _ Hb. injection Hb as <-. split; [reflexivity|].
      intros c Hin Hid. apply in_map_iff in Hin. destruct Hin as (c0 & Ec & _).
      destruct (JsString.eqb (App.Creative.id c0) (App.Creative.id editing)) eqn:E.
      * subst c. repeat split.
      * subst c. apply eqb_false in E. contradiction.
  - do 4 (split; [reflexivity|]). split.
    + intros _. split; [reflexivity|]. split; [exact He|reflexivity].
    + intros baseImage _ Hb. discriminate.
  - do 4 (split; [reflexivity|]). split.
    + intros _. split; [reflexivity|]. split; [exact He|reflexivity].
    + intros baseImage Hc. discriminate.
Qed.

Lemma update_creative_outcomes_witness :
  let w' := App.handleUpdateCreative halfEm true (fun _ => None) (fun _ => [])
              (JsString.lit "Bigger Sale") (JsString.lit "Today only") [] App.editing in
  App.isLoading (App.state w') = false /\
  App.savedCreatives (App.state w') = App.savedCreatives (App.state App.editing) /\
  App.error (App.state w') = Some (JsString.lit "Falha ao atualizar o criativo.").
Proof.
  intros w'.
  destruct (update_creative_outcomes halfEm true (fun _ => None) (fun _ => [])
              (JsString.lit "Bigger Sale") (JsString.lit "Today only") [] App.editing
              _ eq_refl) as (Hl & _ & _ & _ & Hfail & _).
  destruct (Hfail (or_intror eq_refl)) as (Hs & _ & Herr).
  repeat split; assumption.
Defined.
